(** * A bounded, overwrite-on-full queue (QueueTest/queue.h)

    The class [Queue<T>] keeps a circular buffer [elements] of [size] slots
    together with the three [int] fields [count], [front] and [rear].  Every
    member function takes the mutex [mtx] for its whole body, so a call is one
    critical section; the only places where the mutex is given up are the
    condition-variable waits at the head of [Pop] and [PopWithTimeout].

    The embedding below follows that shape: a record for the object, a small
    state-and-error monad for the critical sections, and an explicit account
    of what other threads may do to the object while a caller sleeps in a
    wait. *)

From Stdlib Require Import ZArith Lia String.
From stdpp Require Import base list.

Local Open Scope Z_scope.

(** ** C++ [int] *)

Definition INT_MIN : Z := -2147483648.
Definition INT_MAX : Z := 2147483647.

Definition is_int (z : Z) : bool := (INT_MIN <=? z) && (z <=? INT_MAX).

(** Undefined behaviour a member function could run into. *)
Inductive fault : Type :=
| signed_overflow
| division_by_zero
| out_of_bounds.

(** Exceptions that leave a call. *)
Inductive exn : Type :=
| bad_array_new_length
| runtime_error (what : string).

Section QueueModel.

Variable T : Type.
(** The content of a slot that [new T[size]] has created and nobody has
    assigned yet. *)
Variable dflt : T.

(** ** The object *)

Record Queue : Type := mkQueue {
  elements : list T;   (* T* elements, the slots of the array *)
  size : Z;            (* int size *)
  count : Z;           (* int count *)
  front : Z;           (* int front *)
  rear : Z             (* int rear *)
}.

Definition set_elements (l : list T) (q : Queue) : Queue :=
  mkQueue l (size q) (count q) (front q) (rear q).
Definition set_count (c : Z) (q : Queue) : Queue :=
  mkQueue (elements q) (size q) c (front q) (rear q).
Definition set_front (f : Z) (q : Queue) : Queue :=
  mkQueue (elements q) (size q) (count q) f (rear q).
Definition set_rear (r : Z) (q : Queue) : Queue :=
  mkQueue (elements q) (size q) (count q) (front q) r.

(** ** Outcomes and the monad of critical sections *)

Inductive outcome (A : Type) : Type :=
| Ret (a : A) (q : Queue)       (* the call returns [a] *)
| Throw (e : exn) (q : Queue)   (* the call is left by an exception *)
| Blocked (q : Queue)           (* the caller is still suspended in a wait *)
| Undefined (f : fault).        (* the call has undefined behaviour *)

Arguments Ret {A} a q.
Arguments Throw {A} e q.
Arguments Blocked {A} q.
Arguments Undefined {A} f.

Definition M (A : Type) : Type := Queue -> outcome A.

Definition ret {A} (a : A) : M A := fun q => Ret a q.

Definition bind {A B} (m : M A) (k : A -> M B) : M B := fun q =>
  match m q with
  | Ret a q' => k a q'
  | Throw e q' => Throw e q'
  | Blocked q' => Blocked q'
  | Undefined f => Undefined f
  end.

Notation "'do' x <- m ; k" := (bind m (fun x => k))
  (at level 10, x name, m at level 100, k at level 200).
Notation "m ;; k" := (bind m (fun _ => k))
  (at level 100, k at level 200, right associativity).

Definition get {A} (field : Queue -> A) : M A := fun q => Ret (field q) q.
Definition put (upd : Queue -> Queue) : M unit := fun q => Ret tt (upd q).
Definition throw {A} (e : exn) : M A := fun q => Throw e q.

(** [a + b] on [int]: overflow is undefined. *)
Definition int_add (a b : Z) : M Z := fun q =>
  if is_int (a + b) then Ret (a + b) q else Undefined signed_overflow.

(** [a % b] on [int]: truncating remainder; a zero divisor is undefined, and
    so is [INT_MIN % -1]. *)
Definition int_rem (a b : Z) : M Z := fun q =>
  if b =? 0 then Undefined division_by_zero
  else if (a =? INT_MIN) && (b =? -1) then Undefined signed_overflow
  else Ret (Z.rem a b) q.

(** [elements[i]] as an rvalue. *)
Definition load (i : Z) : M T := fun q =>
  if 0 <=? i then
    match elements q !! Z.to_nat i with
    | Some x => Ret x q
    | None => Undefined out_of_bounds
    end
  else Undefined out_of_bounds.

(** [elements[i] = x]. *)
Definition store (i : Z) (x : T) : M unit := fun q =>
  if (0 <=? i) && (i <? Z.of_nat (length (elements q))) then
    Ret tt (set_elements (<[Z.to_nat i := x]> (elements q)) q)
  else Undefined out_of_bounds.

(** ** Construction

    [Queue(int size) : size(size), count(0), front(0), rear(0)
       { elements = new T[size]; }]

    The constructor itself tests nothing.  A negative array bound makes the
    new-expression throw [std::bad_array_new_length]; a bound of zero is a
    legal allocation of an array without slots.  Running out of memory is
    left out: an allocation with a bound of zero or more succeeds. *)
Definition Queue_ctor (size : Z) : exn + Queue :=
  if size <? 0 then inl bad_array_new_length
  else inr (mkQueue (replicate (Z.to_nat size) dflt) size 0 0 0).

(** ** Push *)

Definition Push (element : T) : M unit :=
  (* unique_lock<mutex> lock(mtx); *)
  do c <- get count;
  do s <- get size;
  (if c =? s then
     do f <- get front;
     do f1 <- int_add f 1;
     do f' <- int_rem f1 s;
     put (set_front f')
   else
     do c' <- int_add c 1;
     put (set_count c')) ;;
  do r <- get rear;
  store r element ;;
  do r1 <- int_add r 1;
  do r' <- int_rem r1 s;
  put (set_rear r') ;;
  (* cond_var.notify_one(): wakes a sleeper, touches no field *)
  ret tt.

(** ** Other threads

    While a caller sleeps inside a wait the mutex is free, and other threads
    may complete critical sections of their own.  Only two kinds change the
    object: a producer's [Push], and a consumer's dequeue (the three
    statements that [Pop] and [PopWithTimeout] share).  A consumer that finds
    [count = 0] goes to sleep itself and changes nothing. *)
Inductive action : Type :=
| other_push (x : T)
| other_pop.

Definition act (a : action) : M unit :=
  match a with
  | other_push x => Push x
  | other_pop =>
      do c <- get count;
      if 0 <? c then
        do f <- get front;
        load f ;;
        do f1 <- int_add f 1;
        do s <- get size;
        do f' <- int_rem f1 s;
        put (set_front f') ;;
        do c' <- int_add c (-1);
        put (set_count c')
      else ret tt
  end.

Fixpoint interfere (w : list action) : M unit :=
  match w with
  | [] => ret tt
  | a :: w' => act a ;; interfere w'
  end.

(** ** Waiting

    [cond_var.wait(lock, pred)] is [while (!pred()) wait(lock);].  Each entry
    of [wakeups] is one sleep: the critical sections other threads completed
    before this caller woke up (notified or spuriously) and got the mutex
    back.  When the list is used up and the predicate still fails, the caller
    stays asleep. *)
Fixpoint wait (wakeups : list (list action)) : M unit := fun q =>
  if 0 <? count q then Ret tt q
  else
    match wakeups with
    | [] => Blocked q
    | w :: ws => (interfere w ;; wait ws) q
    end.

(** [cond_var.wait_for(lock, rel_time, pred)] is
    [while (!pred()) if (wait_until(lock, deadline) == cv_status::timeout)
       return pred();
     return true;]
    with [deadline = now + rel_time].  [early] lists the sleeps that end
    before the deadline, [final] is the sleep that runs into it. *)
Fixpoint wait_until (early : list (list action)) (final : list action) : M bool :=
  fun q =>
  if 0 <? count q then Ret true q
  else
    match early with
    | [] => (interfere final ;; do c <- get count; ret (0 <? c)) q
    | w :: ws => (interfere w ;; wait_until ws final) q
    end.

Record timed : Type := mkTimed {
  early : list (list action);
  final : list action
}.

(** A relative time that is not positive puts the deadline at or before the
    moment of the call, so the first sleep is already the one that times
    out. *)
Definition wait_for (milliseconds : Z) (sch : timed) : M bool :=
  wait_until (if milliseconds <=? 0 then [] else early sch) (final sch).

(** ** Pop and PopWithTimeout *)

Definition Pop (wakeups : list (list action)) : M T :=
  (* unique_lock<mutex> lock(mtx); *)
  wait wakeups ;;
  do f <- get front;
  do element <- load f;
  do f1 <- int_add f 1;
  do s <- get size;
  do f' <- int_rem f1 s;
  put (set_front f') ;;
  do c <- get count;
  do c' <- int_add c (-1);
  put (set_count c') ;;
  ret element.

Definition timeout_message : string := "Timeout: No elements in queue".

Definition PopWithTimeout (milliseconds : Z) (sch : timed) : M T :=
  (* unique_lock<mutex> lock(mtx); *)
  do arrived <- wait_for milliseconds sch;
  (if negb arrived then throw (runtime_error timeout_message) else ret tt) ;;
  do f <- get front;
  do element <- load f;
  do f1 <- int_add f 1;
  do s <- get size;
  do f' <- int_rem f1 s;
  put (set_front f') ;;
  do c <- get count;
  do c' <- int_add c (-1);
  put (set_count c') ;;
  ret element.

(** ** Count and Size *)

Definition Count : M Z :=
  (* lock_guard<mutex> lock(mtx); *)
  get count.

Definition Size : M Z := get size.

(** ** Sequences of calls *)

Inductive op : Type :=
| op_Push (x : T)
| op_Pop (wakeups : list (list action))
| op_PopWithTimeout (milliseconds : Z) (sch : timed)
| op_Count
| op_Size.

(** The object as a call leaves it; nothing is left after undefined
    behaviour. *)
Definition post {A} (o : outcome A) : option Queue :=
  match o with
  | Ret _ q => Some q
  | Throw _ q => Some q
  | Blocked q => Some q
  | Undefined _ => None
  end.

Definition exec (o : op) (q : Queue) : option Queue :=
  match o with
  | op_Push x => post (Push x q)
  | op_Pop wakeups => post (Pop wakeups q)
  | op_PopWithTimeout ms sch => post (PopWithTimeout ms sch q)
  | op_Count => post (Count q)
  | op_Size => post (Size q)
  end.

Fixpoint after (ops : list op) (q : Queue) : option Queue :=
  match ops with
  | [] => Some q
  | o :: os =>
      match exec o q with
      | Some q' => after os q'
      | None => None
      end
  end.

Fixpoint pushes (xs : list T) : M unit :=
  match xs with
  | [] => ret tt
  | x :: xs' => Push x ;; pushes xs'
  end.

(** [m] calls of [Pop] in a row, with no other thread at work. *)
Fixpoint pops (m : nat) : M (list T) :=
  match m with
  | O => ret []
  | S m' => do x <- Pop []; do xs <- pops m'; ret (x :: xs)
  end.

(** ** The class invariant *)

Definition inv (q : Queue) : Prop :=
  1 <= size q <= INT_MAX /\
  Z.of_nat (length (elements q)) = size q /\
  0 <= count q <= size q /\
  0 <= front q < size q /\
  rear q = (front q + count q) mod size q.

(** The live part of the buffer, oldest element first. *)
Definition live (q : Queue) : list T :=
  take (Z.to_nat (count q)) (rotate (Z.to_nat (front q)) (elements q)).

(** The last [n] entries of a list. *)
Definition lastn {A} (n : nat) (l : list A) : list A :=
  drop (length l - n) l.

(** The object after a [Push] that meets no undefined behaviour. *)
Definition pushed (x : T) (q : Queue) : Queue :=
  mkQueue (<[Z.to_nat (rear q) := x]> (elements q))
          (size q)
          (if count q =? size q then count q else count q + 1)
          (if count q =? size q then (front q + 1) mod size q else front q)
          ((rear q + 1) mod size q).

(** The object after a dequeue that meets no undefined behaviour. *)
Definition popped (q : Queue) : Queue :=
  mkQueue (elements q) (size q) (count q - 1)
          ((front q + 1) mod size q) (rear q).

(** A computation that never writes the capacity. *)
Definition keeps_size {A} (m : M A) : Prop :=
  forall q q', post (m q) = Some q' -> size q' = size q.

(** A computation that neither throws nor leaves the caller asleep. *)
Definition calm {A} (m : M A) : Prop :=
  forall q, match m q with
            | Ret _ _ => True
            | Undefined _ => True
            | Throw _ _ => False
            | Blocked _ => False
            end.

(** What other threads did to the object during one timed wait that ran
    into its deadline. *)
Definition others_during (milliseconds : Z) (sch : timed) : list action :=
  concat (if milliseconds <=? 0 then [] else early sch) ++ final sch.

(** No other thread at work during a timed wait. *)
Definition idle : timed := mkTimed [] [].

(** ** Callers

    [try { ... } catch (const runtime_error& e) { ... }], the way the reader
    thread of [main] wraps its [PopWithTimeout]. *)
Definition try_catch {A} (m : M A) (handler : exn -> M A) : M A := fun q =>
  match m q with
  | Throw e q' => handler e q'
  | o => o
  end.

(** Completed calls of a producer and a consumer, one after the other in the
    order their critical sections run.  The producer calls [Push]; the
    consumer polls with [PopWithTimeout] and catches the timeout.  The result
    lists what the consumer got. *)
Fixpoint serve (w : list action) : M (list T) :=
  match w with
  | [] => ret []
  | other_push x :: w' => Push x ;; serve w'
  | other_pop :: w' =>
      do got <- try_catch (do y <- PopWithTimeout 0 idle; ret (Some y))
                          (fun _ => ret None);
      do ys <- serve w';
      ret (match got with Some y => y :: ys | None => ys end)
  end.

(** The elements the producer hands over in [w], in order. *)
Fixpoint pushed_values (w : list action) : list T :=
  match w with
  | [] => []
  | other_push x :: w' => x :: pushed_values w'
  | other_pop :: w' => pushed_values w'
  end.

(** The same calls on a plain list that holds at most [n] elements, oldest
    first, and lets go of the oldest when one more comes in: what the
    consumer gets, and what is left. *)
Fixpoint list_serve (n : nat) (w : list action) (l : list T) : list T * list T :=
  match w with
  | [] => ([], l)
  | other_push x :: w' => list_serve n w' (lastn n (l ++ [x]))
  | other_pop :: w' =>
      match l with
      | [] => list_serve n w' []
      | y :: l' => let (ys, rest) := list_serve n w' l' in (y :: ys, rest)
      end
  end.

Definition is_pop (a : action) : bool :=
  match a with
  | other_pop => true
  | other_push _ => false
  end.

(** Sleeps during which no other thread pushes. *)
Definition push_free (ws : list (list action)) : bool :=
  forallb (forallb is_pop) ws.

(** ** Basic facts *)

Lemma inv_rear_range q : inv q -> 0 <= rear q < size q.
Proof.
  intros (Hs & _ & _ & _ & Hr). rewrite Hr. apply Z.mod_pos_bound. lia.
Qed.

Lemma is_int_true z : INT_MIN <= z <= INT_MAX -> is_int z = true.
Proof. unfold is_int. intros ?. apply andb_true_intro. split; apply Z.leb_le; lia. Qed.

Lemma int_add_ok a b q :
  INT_MIN <= a + b <= INT_MAX -> int_add a b q = Ret (a + b) q.
Proof. intros H. unfold int_add. now rewrite is_int_true. Qed.

Lemma int_rem_ok a b q :
  0 <= a -> 0 < b -> int_rem a b q = Ret (a mod b) q.
Proof.
  intros Ha Hb. unfold int_rem.
  destruct (Z.eqb_spec b 0); [lia|].
  destruct (Z.eqb_spec a INT_MIN); [unfold INT_MIN in *; lia|].
  simpl. now rewrite Z.rem_mod_nonneg by lia.
Qed.

Lemma store_ok i x q :
  0 <= i < Z.of_nat (length (elements q)) ->
  store i x q = Ret tt (set_elements (<[Z.to_nat i := x]> (elements q)) q).
Proof.
  intros H. unfold store.
  destruct (Z.leb_spec 0 i); [|lia].
  destruct (Z.ltb_spec i (Z.of_nat (length (elements q)))); [|lia].
  reflexivity.
Qed.

Lemma load_ok i q :
  0 <= i < Z.of_nat (length (elements q)) ->
  exists x, elements q !! Z.to_nat i = Some x /\ load i q = Ret x q.
Proof.
  intros H. unfold load.
  destruct (Z.leb_spec 0 i); [|lia].
  destruct (lookup_lt_is_Some_2 (elements q) (Z.to_nat i)) as [x Hx]; [lia|].
  exists x. now rewrite Hx.
Qed.

Lemma Push_pushed x q : inv q -> Push x q = Ret tt (pushed x q).
Proof.
  intros Hq. pose proof (inv_rear_range q Hq) as Hr.
  destruct Hq as (Hs & Hl & Hc & Hf & _).
  unfold Push, pushed, bind, get, put, ret. unfold INT_MAX in Hs.
  destruct (count q =? size q) eqn:E.
  - rewrite int_add_ok by (unfold INT_MIN, INT_MAX; lia).
    rewrite int_rem_ok by lia.
    rewrite store_ok by (simpl; lia). simpl.
    rewrite int_add_ok by (unfold INT_MIN, INT_MAX; lia).
    rewrite int_rem_ok by lia. reflexivity.
  - apply Z.eqb_neq in E.
    rewrite int_add_ok by (unfold INT_MIN, INT_MAX; lia).
    rewrite store_ok by (simpl; lia). simpl.
    rewrite int_add_ok by (unfold INT_MIN, INT_MAX; lia).
    rewrite int_rem_ok by lia. reflexivity.
Qed.

Lemma inv_pushed x q : inv q -> inv (pushed x q).
Proof.
  intros Hq. pose proof (inv_rear_range q Hq) as Hr.
  destruct Hq as (Hs & Hl & Hc & Hf & Hre).
  unfold inv, pushed. simpl. rewrite length_insert.
  destruct (Z.eqb_spec (count q) (size q)) as [E|E].
  - repeat split; try lia; try (apply Z.mod_pos_bound; lia).
    rewrite Hre, E.
    rewrite Z.add_mod_idemp_l by lia. rewrite Z.add_mod_idemp_l by lia.
    f_equal. lia.
  - repeat split; try lia.
    rewrite Hre. rewrite Z.add_mod_idemp_l by lia. f_equal. lia.
Qed.

Lemma wait_ready w q : 0 < count q -> wait w q = Ret tt q.
Proof.
  intros H. destruct w; simpl; destruct (Z.ltb_spec 0 (count q)); auto; lia.
Qed.

Lemma wait_until_ready e f q : 0 < count q -> wait_until e f q = Ret true q.
Proof.
  intros H. destruct e; simpl; destruct (Z.ltb_spec 0 (count q)); auto; lia.
Qed.

Lemma Pop_popped w q :
  inv q -> 0 < count q ->
  exists y, elements q !! Z.to_nat (front q) = Some y /\
            Pop w q = Ret y (popped q).
Proof.
  intros (Hs & Hl & Hc & Hf & _) Hpos. unfold INT_MAX in Hs.
  destruct (load_ok (front q) q) as (y & Hy & Hld); [lia|].
  exists y. split; [exact Hy|].
  unfold Pop, bind. rewrite wait_ready by exact Hpos.
  unfold get. rewrite Hld.
  rewrite int_add_ok by (unfold INT_MIN, INT_MAX; lia).
  rewrite int_rem_ok by lia. unfold put. simpl.
  rewrite int_add_ok by (unfold INT_MIN, INT_MAX; lia).
  reflexivity.
Qed.

Lemma inv_popped q : inv q -> 0 < count q -> inv (popped q).
Proof.
  intros (Hs & Hl & Hc & Hf & Hre) Hpos.
  unfold inv, popped. simpl.
  repeat split; try lia; try (apply Z.mod_pos_bound; lia).
  rewrite Hre. rewrite Z.add_mod_idemp_l by lia. f_equal. lia.
Qed.

Lemma act_ok a q : inv q -> exists q', act a q = Ret tt q' /\ inv q'.
Proof.
  intros Hq. destruct a as [x|].
  - exists (pushed x q). split; [now apply Push_pushed | now apply inv_pushed].
  - simpl. unfold bind at 1. unfold get at 1.
    destruct (Z.ltb_spec 0 (count q)) as [Hpos|Hz].
    + exists (popped q). split; [|now apply inv_popped].
      destruct Hq as (Hs & Hl & Hc & Hf & _). unfold INT_MAX in Hs.
      destruct (load_ok (front q) q) as (y & Hy & Hld); [lia|].
      unfold bind, get. rewrite Hld.
      rewrite int_add_ok by (unfold INT_MIN, INT_MAX; lia).
      rewrite int_rem_ok by lia. unfold put. simpl.
      rewrite int_add_ok by (unfold INT_MIN, INT_MAX; lia).
      reflexivity.
    + exists q. split; [reflexivity | exact Hq].
Qed.

Lemma interfere_ok w q : inv q -> exists q', interfere w q = Ret tt q' /\ inv q'.
Proof.
  revert q. induction w as [|a w IH]; intros q Hq.
  - exists q. split; [reflexivity | exact Hq].
  - destruct (act_ok a q Hq) as (q1 & E1 & H1).
    destruct (IH q1 H1) as (q2 & E2 & H2).
    exists q2. split; [|exact H2].
    simpl. unfold bind. rewrite E1. exact E2.
Qed.

(** A wait on a sound object ends with the caller awake on a sound,
    non-empty object, or still asleep on a sound, empty one. *)
Lemma wait_ok ws q :
  inv q ->
  exists q', inv q' /\
    ((wait ws q = Ret tt q' /\ 0 < count q') \/
     (wait ws q = Blocked q' /\ count q' = 0)).
Proof.
  revert q. induction ws as [|w ws IH]; intros q Hq; simpl.
  - destruct (Z.ltb_spec 0 (count q)).
    + exists q. split; [exact Hq|]. left. split; [reflexivity | lia].
    + exists q. split; [exact Hq|]. right. split; [reflexivity|].
      destruct Hq as (_ & _ & Hc & _). lia.
  - destruct (Z.ltb_spec 0 (count q)).
    + exists q. split; [exact Hq|]. left. split; [reflexivity | lia].
    + destruct (interfere_ok w q Hq) as (q1 & E1 & H1).
      unfold bind. rewrite E1. apply IH. exact H1.
Qed.

Lemma wait_until_ok e f q :
  inv q ->
  exists q', inv q' /\
    ((wait_until e f q = Ret true q' /\ 0 < count q') \/
     (wait_until e f q = Ret false q' /\ count q' = 0)).
Proof.
  revert q. induction e as [|w ws IH]; intros q Hq; simpl.
  - destruct (Z.ltb_spec 0 (count q)).
    + exists q. split; [exact Hq|]. left. split; [reflexivity | lia].
    + destruct (interfere_ok f q Hq) as (q1 & E1 & H1).
      exists q1. split; [exact H1|].
      unfold bind. rewrite E1. unfold get, ret.
      destruct (Z.ltb_spec 0 (count q1)).
      * left. split; [reflexivity | lia].
      * right. split; [reflexivity|]. destruct H1 as (_ & _ & Hc & _). lia.
  - destruct (Z.ltb_spec 0 (count q)).
    + exists q. split; [exact Hq|]. left. split; [reflexivity | lia].
    + destruct (interfere_ok w q Hq) as (q1 & E1 & H1).
      unfold bind. rewrite E1. apply IH. exact H1.
Qed.

(** Two offsets below [s] that land on the same slot are the same offset. *)
Lemma slot_inj s f a b :
  0 <= f < s -> 0 <= a < s -> 0 <= b < s ->
  Z.to_nat ((f + a) mod s) = Z.to_nat ((f + b) mod s) -> a = b.
Proof.
  intros Hf Ha Hb Heq.
  apply Z2Nat.inj in Heq; try (apply Z.mod_pos_bound; lia).
  assert (Hcase : forall x, 0 <= x < s -> ((f + x) mod s = f + x \/ (f + x) mod s = f + x - s)).
  { intros x Hx. destruct (Z_lt_ge_dec (f + x) s).
    - left. apply Z.mod_small. lia.
    - right. replace (f + x) with ((f + x - s) + 1 * s) at 1 by lia.
      rewrite Z.mod_add by lia. apply Z.mod_small. lia. }
  pose proof (Z.mod_pos_bound (f + a) s).
  pose proof (Z.mod_pos_bound (f + b) s).
  destruct (Hcase a Ha), (Hcase b Hb); lia.
Qed.

(** *** The live part under Push and Pop *)

Lemma length_live q : inv q -> length (live q) = Z.to_nat (count q).
Proof.
  intros (Hs & Hl & Hc & _). unfold live.
  rewrite length_take, length_rotate. lia.
Qed.

Lemma live_lookup q (i : nat) :
  inv q -> Z.of_nat i < count q ->
  live q !! i = elements q !! Z.to_nat ((front q + Z.of_nat i) mod size q).
Proof.
  intros (Hs & Hl & Hc & Hf & _) Hi. unfold live.
  rewrite lookup_take_lt by lia.
  rewrite lookup_rotate_r by lia.
  unfold rotate_nat_add. rewrite Hl. rewrite Z2Nat.id by lia. reflexivity.
Qed.

Lemma live_pushed x q :
  inv q ->
  live (pushed x q) =
    if count q =? size q then drop 1 (live q) ++ [x] else live q ++ [x].
Proof.
  intros Hq. pose proof (inv_pushed x q Hq) as Hq'.
  pose proof (length_live q Hq) as Hlen.
  pose proof (inv_rear_range q Hq) as Hr.
  assert (Hq0 := Hq). destruct Hq0 as (Hs & Hl & Hc & Hf & Hre).
  destruct (Z.eqb_spec (count q) (size q)) as [E|E].
  - assert (Hc' : count (pushed x q) = size q).
    { unfold pushed. simpl. destruct (Z.eqb_spec (count q) (size q)); lia. }
    assert (Hrf : rear q = (front q + 0) mod size q).
    { rewrite Hre, E. rewrite <- (Z.mul_1_l (size q)) at 1.
      rewrite Z.mod_add by lia. f_equal. lia. }
    apply list_eq. intros i.
    destruct (decide (Z.of_nat i < size q)) as [Hi|Hi].
    + rewrite live_lookup by (auto; lia).
      unfold pushed at 1 2 3. simpl.
      destruct (Z.eqb_spec (count q) (size q)) as [_|]; [|lia].
      rewrite Z.add_mod_idemp_l by lia.
      destruct (decide (Z.of_nat i = size q - 1)) as [Hlast|Hnl].
      * rewrite lookup_app_r by (rewrite length_drop; lia).
        rewrite length_drop.
        replace (i - (length (live q) - 1))%nat with 0%nat by lia. simpl.
        replace (front q + 1 + Z.of_nat i) with (front q + 0 + 1 * size q) by lia.
        rewrite Z.mod_add by lia. rewrite <- Hrf.
        apply list_lookup_insert_eq. lia.
      * rewrite lookup_app_l by (rewrite length_drop; lia).
        rewrite lookup_drop.
        rewrite live_lookup by (auto; lia).
        rewrite list_lookup_insert_ne.
        { f_equal. f_equal. f_equal. lia. }
        rewrite Hrf. intros Heq.
        replace (front q + 1 + Z.of_nat i) with (front q + (1 + Z.of_nat i)) in Heq by lia.
        apply slot_inj in Heq; lia.
    + rewrite !lookup_ge_None_2; [reflexivity| |].
      * rewrite length_app, length_drop. simpl. lia.
      * rewrite length_live by exact Hq'. lia.
  - assert (Hc' : count (pushed x q) = count q + 1).
    { unfold pushed. simpl. destruct (Z.eqb_spec (count q) (size q)); lia. }
    apply list_eq. intros i.
    destruct (decide (Z.of_nat i < count q + 1)) as [Hi|Hi].
    + rewrite live_lookup by (auto; lia).
      unfold pushed at 1 2 3. simpl.
      destruct (Z.eqb_spec (count q) (size q)) as [|_]; [lia|].
      destruct (decide (Z.of_nat i = count q)) as [Hlast|Hnl].
      * rewrite lookup_app_r by lia.
        replace (i - length (live q))%nat with 0%nat by lia. simpl.
        rewrite Hlast, <- Hre. apply list_lookup_insert_eq. lia.
      * rewrite lookup_app_l by lia.
        rewrite live_lookup by (auto; lia).
        apply list_lookup_insert_ne.
        rewrite Hre. intros Heq. apply slot_inj in Heq; lia.
    + rewrite !lookup_ge_None_2; [reflexivity| |].
      * rewrite length_app. simpl. lia.
      * rewrite length_live by exact Hq'. lia.
Qed.

Lemma live_popped q y :
  inv q -> 0 < count q ->
  elements q !! Z.to_nat (front q) = Some y ->
  live q = y :: live (popped q).
Proof.
  intros Hq Hpos Hy. pose proof (inv_popped q Hq Hpos) as Hq'.
  pose proof (length_live q Hq) as Hlen.
  pose proof (length_live _ Hq') as Hlen'.
  assert (Hq0 := Hq). destruct Hq0 as (Hs & Hl & Hc & Hf & Hre).
  apply list_eq. intros [|j].
  - rewrite live_lookup by (auto; lia). simpl.
    rewrite Z.add_0_r, Z.mod_small by lia. exact Hy.
  - simpl. destruct (decide (Z.of_nat (S j) < count q)) as [Hj|Hj].
    + rewrite !live_lookup by (auto; simpl; lia).
      simpl front. simpl size. simpl elements.
      rewrite Z.add_mod_idemp_l by lia.
      f_equal. f_equal. f_equal. lia.
    + rewrite !lookup_ge_None_2; [reflexivity| |].
      * rewrite Hlen'. simpl. lia.
      * lia.
Qed.

Lemma lastn_all {A} n (l : list A) : (length l <= n)%nat -> lastn n l = l.
Proof. intros H. unfold lastn. replace (length l - n)%nat with 0%nat by lia. reflexivity. Qed.

Lemma lastn_app {A} n (a b : list A) : lastn n (lastn n a ++ b) = lastn n (a ++ b).
Proof.
  unfold lastn.
  rewrite <- (drop_app_le a b (length a - n)) by lia.
  rewrite drop_drop. f_equal.
  rewrite length_drop, !length_app. lia.
Qed.

Lemma lastn_snoc_full {A} n (l : list A) x :
  (1 <= n)%nat -> length l = n -> lastn n (l ++ [x]) = drop 1 l ++ [x].
Proof.
  intros Hn H. unfold lastn. rewrite length_app. simpl.
  replace (length l + 1 - n)%nat with 1%nat by lia.
  destruct l; simpl in *; [lia|]. now rewrite drop_0.
Qed.

Lemma pushes_ok xs q :
  inv q ->
  exists q', pushes xs q = Ret tt q' /\ inv q' /\ size q' = size q /\
             live q' = lastn (Z.to_nat (size q)) (live q ++ xs).
Proof.
  revert q. induction xs as [|x xs IH]; intros q Hq.
  - exists q. split; [reflexivity|]. split; [exact Hq|]. split; [reflexivity|].
    rewrite app_nil_r, lastn_all; [reflexivity|].
    rewrite length_live by exact Hq. destruct Hq as (_ & _ & Hc & _). lia.
  - destruct (IH (pushed x q) (inv_pushed x q Hq)) as (q' & E & Hq' & Hsz & Hlive).
    exists q'. simpl. unfold bind. rewrite Push_pushed by exact Hq.
    split; [exact E|]. split; [exact Hq'|]. split; [exact Hsz|].
    rewrite Hlive. simpl size.
    rewrite live_pushed by exact Hq.
    pose proof (length_live q Hq) as Hlen.
    destruct Hq as (Hs & Hl & Hc & Hf & Hre).
    replace (live q ++ x :: xs) with ((live q ++ [x]) ++ xs)
      by (rewrite <- app_assoc; reflexivity).
    rewrite <- (lastn_app _ (live q ++ [x]) xs).
    destruct (Z.eqb_spec (count q) (size q)) as [E'|E'].
    + rewrite lastn_snoc_full by lia. reflexivity.
    + rewrite (lastn_all _ (live q ++ [x])); [reflexivity|].
      rewrite length_app. simpl. lia.
Qed.

Lemma pops_ok m q :
  inv q -> Z.of_nat m <= count q ->
  exists q', pops m q = Ret (take m (live q)) q' /\ inv q' /\
             size q' = size q /\ count q' = count q - Z.of_nat m /\
             live q' = drop m (live q).
Proof.
  revert q. induction m as [|m IH]; intros q Hq Hm.
  - exists q. simpl. split; [reflexivity|]. split; [exact Hq|].
    split; [reflexivity|]. split; [lia|]. reflexivity.
  - destruct (Pop_popped [] q Hq) as (y & Hy & E); [lia|].
    pose proof (live_popped q y Hq ltac:(lia) Hy) as Hlive.
    destruct (IH (popped q) (inv_popped q Hq ltac:(lia))) as (q' & E' & Hq' & Hsz & Hcnt & Hl');
      [simpl; lia|].
    exists q'. cbn [pops]. unfold bind. rewrite E, E'. unfold ret.
    rewrite Hlive. simpl take. simpl drop.
    split; [reflexivity|]. split; [exact Hq'|]. split; [exact Hsz|].
    split; [simpl in Hcnt; lia | exact Hl'].
Qed.

Lemma lastn_app_ge {A} n (a b : list A) :
  (n <= length b)%nat -> lastn n (a ++ b) = drop (length b - n) b.
Proof.
  intros H. unfold lastn. rewrite length_app.
  replace (length a + length b - n)%nat with (length a + (length b - n))%nat by lia.
  apply drop_app_add.
Qed.

(** *** Construction and sequences of calls *)

Lemma ctor_ok n :
  1 <= n <= INT_MAX ->
  Queue_ctor n = inr (mkQueue (replicate (Z.to_nat n) dflt) n 0 0 0) /\
  inv (mkQueue (replicate (Z.to_nat n) dflt) n 0 0 0).
Proof.
  intros Hn. split.
  - unfold Queue_ctor. destruct (Z.ltb_spec n 0); [lia | reflexivity].
  - unfold inv. simpl. rewrite length_replicate.
    repeat split; try lia; rewrite Z.mod_0_l; lia.
Qed.

Lemma Pop_after_wait ws q q1 :
  wait ws q = Ret tt q1 -> 0 < count q1 -> Pop ws q = Pop [] q1.
Proof.
  intros E Hpos. unfold Pop, bind. rewrite E.
  rewrite (wait_ready [] q1) by exact Hpos. reflexivity.
Qed.

Lemma PopWithTimeout_arrived ms sch q q1 :
  wait_for ms sch q = Ret true q1 -> 0 < count q1 ->
  PopWithTimeout ms sch q = Pop [] q1.
Proof.
  intros E Hpos. unfold PopWithTimeout, Pop, bind. rewrite E.
  rewrite (wait_ready [] q1) by exact Hpos. reflexivity.
Qed.

Lemma PopWithTimeout_expired ms sch q q1 :
  wait_for ms sch q = Ret false q1 ->
  PopWithTimeout ms sch q = Throw (runtime_error timeout_message) q1.
Proof. intros E. unfold PopWithTimeout, bind. rewrite E. reflexivity. Qed.

Lemma exec_ok o q : inv q -> exists q', exec o q = Some q' /\ inv q'.
Proof.
  intros Hq. destruct o as [x|ws|ms sch| |]; simpl.
  - exists (pushed x q). rewrite Push_pushed by exact Hq.
    split; [reflexivity | now apply inv_pushed].
  - destruct (wait_ok ws q Hq) as (q1 & H1 & [[E Hpos]|[E Hz]]).
    + rewrite (Pop_after_wait ws q q1 E Hpos).
      destruct (Pop_popped [] q1 H1 Hpos) as (y & _ & E').
      exists (popped q1). rewrite E'. split; [reflexivity | now apply inv_popped].
    + exists q1. unfold Pop, bind. rewrite E. split; [reflexivity | exact H1].
  - destruct (wait_until_ok (if ms <=? 0 then [] else early sch) (final sch) q Hq)
      as (q1 & H1 & [[E Hpos]|[E Hz]]).
    + rewrite (PopWithTimeout_arrived ms sch q q1 E Hpos).
      destruct (Pop_popped [] q1 H1 Hpos) as (y & _ & E').
      exists (popped q1). rewrite E'. split; [reflexivity | now apply inv_popped].
    + exists q1. rewrite (PopWithTimeout_expired ms sch q q1 E).
      split; [reflexivity | exact H1].
  - exists q. split; [reflexivity | exact Hq].
  - exists q. split; [reflexivity | exact Hq].
Qed.

Lemma after_ok ops q : inv q -> exists q', after ops q = Some q' /\ inv q'.
Proof.
  revert q. induction ops as [|o ops IH]; intros q Hq; simpl.
  - exists q. split; [reflexivity | exact Hq].
  - destruct (exec_ok o q Hq) as (q1 & E1 & H1). rewrite E1. now apply IH.
Qed.

Lemma reached_inv n ops q0 q :
  1 <= n <= INT_MAX -> Queue_ctor n = inr q0 -> after ops q0 = Some q ->
  inv q /\ size q0 = n /\ inv q0.
Proof.
  intros Hn Hc Ha. destruct (ctor_ok n Hn) as (E & H0).
  rewrite E in Hc. injection Hc as <-.
  destruct (after_ok ops _ H0) as (q' & E' & H').
  rewrite E' in Ha. injection Ha as <-. split; [exact H'|]. split; [reflexivity | exact H0].
Qed.

(** *** The capacity is never written *)

Lemma ks_bind {A B} (m : M A) (k : A -> M B) :
  keeps_size m -> (forall a, keeps_size (k a)) -> keeps_size (bind m k).
Proof.
  intros Hm Hk q q'. unfold bind. specialize (Hm q).
  destruct (m q) as [a q1|e q1|q1|f]; simpl in *; intros H.
  - rewrite (Hk a q1 q' H). now apply Hm.
  - now apply Hm.
  - now apply Hm.
  - discriminate.
Qed.

Lemma ks_ret {A} (a : A) : keeps_size (ret a).
Proof. intros q q' H. now injection H as <-. Qed.

Lemma ks_get {A} (field : Queue -> A) : keeps_size (get field).
Proof. intros q q' H. now injection H as <-. Qed.

Lemma ks_throw {A} e : keeps_size (@throw A e).
Proof. intros q q' H. now injection H as <-. Qed.

Lemma ks_put upd : (forall q, size (upd q) = size q) -> keeps_size (put upd).
Proof. intros Hu q q' H. injection H as <-. apply Hu. Qed.

Lemma ks_int_add a b : keeps_size (int_add a b).
Proof.
  intros q q'. unfold int_add. destruct (is_int (a + b)); simpl; intros H;
    [now injection H as <- | discriminate].
Qed.

Lemma ks_int_rem a b : keeps_size (int_rem a b).
Proof.
  intros q q'. unfold int_rem.
  destruct (b =? 0); [discriminate|].
  destruct ((a =? INT_MIN) && (b =? -1)); simpl; intros H;
    [discriminate | now injection H as <-].
Qed.

Lemma ks_load i : keeps_size (load i).
Proof.
  intros q q'. unfold load. destruct (0 <=? i); [|discriminate].
  destruct (elements q !! Z.to_nat i); simpl; intros H;
    [now injection H as <- | discriminate].
Qed.

Lemma ks_store i x : keeps_size (store i x).
Proof.
  intros q q'. unfold store.
  destruct ((0 <=? i) && (i <? Z.of_nat (length (elements q)))); simpl; intros H;
    [now injection H as <- | discriminate].
Qed.

Ltac ks_step :=
  first [ apply ks_bind; [|intros ?]
        | apply ks_ret | apply ks_get | apply ks_throw
        | apply ks_int_add | apply ks_int_rem | apply ks_load | apply ks_store
        | apply ks_put; intros ?; reflexivity ].

Lemma ks_Push x : keeps_size (Push x).
Proof.
  unfold Push. do 3 ks_step.
  - destruct (_ =? _); repeat ks_step.
  - repeat ks_step.
Qed.

Lemma ks_act a : keeps_size (act a).
Proof.
  destruct a; simpl; [apply ks_Push|].
  ks_step; [ks_step|]. destruct (0 <? _); repeat ks_step.
Qed.

Lemma ks_interfere w : keeps_size (interfere w).
Proof.
  induction w as [|a w IH]; simpl; [apply ks_ret|].
  apply ks_bind; [apply ks_act | intros _; exact IH].
Qed.

Lemma ks_wait ws : keeps_size (wait ws).
Proof.
  induction ws as [|w ws IH]; intros q q'; simpl;
    destruct (0 <? count q); simpl; intros H; try (now injection H as <-).
  revert H. apply (ks_bind (interfere w) (fun _ => wait ws));
    [apply ks_interfere | intros _; exact IH].
Qed.

Lemma ks_wait_until e f : keeps_size (wait_until e f).
Proof.
  induction e as [|w ws IH]; intros q q'; simpl;
    destruct (0 <? count q); simpl; intros H; try (now injection H as <-).
  - revert H. apply (ks_bind (interfere f) (fun _ => bind (get count) (fun c => ret (0 <? c)))).
    + apply ks_interfere.
    + intros _. repeat ks_step.
  - revert H. apply (ks_bind (interfere w) (fun _ => wait_until ws f));
      [apply ks_interfere | intros _; exact IH].
Qed.

Lemma ks_Pop ws : keeps_size (Pop ws).
Proof. unfold Pop. apply ks_bind; [apply ks_wait | intros _; repeat ks_step]. Qed.

Lemma ks_PopWithTimeout ms sch : keeps_size (PopWithTimeout ms sch).
Proof.
  unfold PopWithTimeout. apply ks_bind; [apply ks_wait_until|].
  intros b. apply ks_bind; [destruct b; simpl; ks_step | intros _; repeat ks_step].
Qed.

Lemma exec_size o q q' : exec o q = Some q' -> size q' = size q.
Proof.
  destruct o; simpl.
  - apply ks_Push.
  - apply ks_Pop.
  - apply ks_PopWithTimeout.
  - apply (ks_get count).
  - apply (ks_get size).
Qed.

Lemma after_size ops q q' : after ops q = Some q' -> size q' = size q.
Proof.
  revert q. induction ops as [|o ops IH]; intros q; simpl.
  - intros H. now injection H as <-.
  - destruct (exec o q) as [q1|] eqn:E; [|discriminate].
    intros H. rewrite (IH q1 H). exact (exec_size o q q1 E).
Qed.

(** *** Waits neither throw nor leave the caller asleep past a deadline *)

Lemma calm_bind {A B} (m : M A) (k : A -> M B) :
  calm m -> (forall a, calm (k a)) -> calm (bind m k).
Proof.
  intros Hm Hk q. unfold bind. specialize (Hm q).
  destruct (m q) as [a q1|e q1|q1|f]; try contradiction; [apply Hk | exact I].
Qed.

Lemma calm_ret {A} (a : A) : calm (ret a).
Proof. intros q. exact I. Qed.

Lemma calm_get {A} (field : Queue -> A) : calm (get field).
Proof. intros q. exact I. Qed.

Lemma calm_put upd : calm (put upd).
Proof. intros q. exact I. Qed.

Lemma calm_int_add a b : calm (int_add a b).
Proof. intros q. unfold int_add. now destruct (is_int (a + b)). Qed.

Lemma calm_int_rem a b : calm (int_rem a b).
Proof.
  intros q. unfold int_rem. destruct (b =? 0); [exact I|].
  now destruct ((a =? INT_MIN) && (b =? -1)).
Qed.

Lemma calm_load i : calm (load i).
Proof.
  intros q. unfold load. destruct (0 <=? i); [|exact I].
  now destruct (elements q !! Z.to_nat i).
Qed.

Lemma calm_store i x : calm (store i x).
Proof.
  intros q. unfold store.
  now destruct ((0 <=? i) && (i <? Z.of_nat (length (elements q)))).
Qed.

Ltac calm_step :=
  first [ apply calm_bind; [|intros ?]
        | apply calm_ret | apply calm_get | apply calm_put
        | apply calm_int_add | apply calm_int_rem
        | apply calm_load | apply calm_store ].

Lemma calm_Push x : calm (Push x).
Proof.
  unfold Push. do 3 calm_step.
  - destruct (_ =? _); repeat calm_step.
  - repeat calm_step.
Qed.

Lemma calm_act a : calm (act a).
Proof.
  destruct a; simpl; [apply calm_Push|].
  calm_step; [calm_step|]. destruct (0 <? _); repeat calm_step.
Qed.

Lemma calm_interfere w : calm (interfere w).
Proof.
  induction w as [|a w IH]; simpl; [apply calm_ret|].
  apply calm_bind; [apply calm_act | intros _; exact IH].
Qed.

Lemma interfere_app w1 w2 q :
  interfere (w1 ++ w2) q = bind (interfere w1) (fun _ => interfere w2) q.
Proof.
  revert q. induction w1 as [|a w1 IH]; intros q; simpl; [reflexivity|].
  unfold bind. destruct (act a q) as [[] q1|e q1|q1|f]; try reflexivity.
  rewrite IH. reflexivity.
Qed.

Lemma wait_until_false e f q q' :
  wait_until e f q = Ret false q' ->
  interfere (concat e ++ f) q = Ret tt q' /\ count q' <= 0.
Proof.
  revert q. induction e as [|w ws IH]; intros q; simpl;
    destruct (Z.ltb_spec 0 (count q)); try discriminate.
  - unfold bind, get, ret. pose proof (calm_interfere f q) as Hc.
    destruct (interfere f q) as [[] q1|e q1|q1|u]; try contradiction; try discriminate.
    intros Hr. injection Hr as Hb <-. split; [reflexivity|].
    apply Z.ltb_ge. exact Hb.
  - rewrite <- app_assoc, interfere_app. unfold bind.
    pose proof (calm_interfere w q) as Hc.
    destruct (interfere w q) as [[] q1|e q1|q1|u]; try contradiction; try discriminate.
    apply IH.
Qed.

Lemma wait_until_calm e f : calm (wait_until e f).
Proof.
  induction e as [|w ws IH]; intros q; simpl; destruct (0 <? count q); try exact I.
  - apply (calm_bind (interfere f) (fun _ => bind (get count) (fun c => ret (0 <? c)))).
    + apply calm_interfere.
    + intros _. repeat calm_step.
  - apply (calm_bind (interfere w) (fun _ => wait_until ws f));
      [apply calm_interfere | intros _; exact IH].
Qed.

Lemma PopWithTimeout_Throw ms sch q e q' :
  PopWithTimeout ms sch q = Throw e q' ->
  e = runtime_error timeout_message /\ wait_for ms sch q = Ret false q'.
Proof.
  unfold PopWithTimeout. unfold bind at 1.
  pose proof (wait_until_calm (if ms <=? 0 then [] else early sch) (final sch) q) as Hc.
  fold (wait_for ms sch) in Hc.
  destruct (wait_for ms sch q) as [[|] q1|e1 q1|q1|u]; try contradiction; try discriminate.
  - intros H. exfalso.
    assert (Hb : calm (bind (ret tt) (fun _ : unit =>
              bind (get front) (fun f => bind (load f) (fun element =>
              bind (int_add f 1) (fun f1 => bind (get size) (fun s0 =>
              bind (int_rem f1 s0) (fun f' => bind (put (set_front f')) (fun _ =>
              bind (get count) (fun c => bind (int_add c (-1)) (fun c' =>
              bind (put (set_count c')) (fun _ => ret element))))))))))))
      by repeat calm_step.
    specialize (Hb q1). simpl negb in H. cbv iota in H. rewrite H in Hb. exact Hb.
  - simpl. unfold bind, throw. intros H. injection H as <- <-. split; reflexivity.
Qed.

(** ** The properties of the queue *)

(** C1: on a queue of capacity [n >= 1], in whatever state earlier calls left
    it, [n + k] pushes in a row ([k >= 1]) leave exactly the last [n] pushed
    elements: the queue is full, [n] pops return those [n] elements oldest
    first, and nothing is left afterwards. *)
Theorem Push_overflow_keeps_last n k ops xs q0 q :
  1 <= n <= INT_MAX -> 1 <= k ->
  Queue_ctor n = inr q0 -> after ops q0 = Some q ->
  Z.of_nat (length xs) = n + k ->
  exists q1 q2,
    pushes xs q = Ret tt q1 /\ count q1 = n /\
    pops (Z.to_nat n) q1 = Ret (drop (Z.to_nat k) xs) q2 /\ count q2 = 0.
Proof.
  intros Hn Hk Hc Ha Hlen.
  destruct (reached_inv n ops q0 q Hn Hc Ha) as (Hq & Hs0 & _).
  pose proof (after_size ops q0 q Ha) as Hsz. rewrite Hs0 in Hsz.
  destruct (pushes_ok xs q Hq) as (q1 & E1 & Hq1 & Hsz1 & Hlive).
  rewrite Hsz in Hlive, Hsz1.
  rewrite lastn_app_ge in Hlive by lia.
  replace (length xs - Z.to_nat n)%nat with (Z.to_nat k) in Hlive by lia.
  assert (Hc1 : count q1 = n).
  { pose proof (length_live q1 Hq1) as L. rewrite Hlive, length_drop in L.
    destruct Hq1 as (_ & _ & Hcq & _). lia. }
  destruct (pops_ok (Z.to_nat n) q1 Hq1) as (q2 & E2 & _ & _ & Hc2 & _); [lia|].
  exists q1, q2. split; [exact E1|]. split; [exact Hc1|]. split; [|lia].
  rewrite E2. f_equal. rewrite Hlive. apply take_ge. rewrite length_drop. lia.
Qed.

(** C2: when the pushes do not overflow the capacity, pops return the
    elements in the order they were pushed, behind the elements that were
    already waiting in the queue. *)
Theorem Push_Pop_fifo n ops xs q0 q :
  1 <= n <= INT_MAX ->
  Queue_ctor n = inr q0 -> after ops q0 = Some q ->
  count q + Z.of_nat (length xs) <= n ->
  exists old q' q1 q2,
    pops (Z.to_nat (count q)) q = Ret old q' /\
    pushes xs q = Ret tt q1 /\
    pops (Z.to_nat (count q) + length xs) q1 = Ret (old ++ xs) q2 /\
    count q2 = 0.
Proof.
  intros Hn Hc Ha Hlen.
  destruct (reached_inv n ops q0 q Hn Hc Ha) as (Hq & Hs0 & _).
  pose proof (after_size ops q0 q Ha) as Hsz. rewrite Hs0 in Hsz.
  pose proof (length_live q Hq) as Lq.
  assert (Hcq : 0 <= count q) by (destruct Hq as (_ & _ & ? & _); lia).
  destruct (pops_ok (Z.to_nat (count q)) q Hq) as (q' & E0 & _); [lia|].
  rewrite take_ge in E0 by lia.
  destruct (pushes_ok xs q Hq) as (q1 & E1 & Hq1 & Hsz1 & Hlive).
  rewrite lastn_all in Hlive by (rewrite length_app; lia).
  pose proof (length_live q1 Hq1) as L1. rewrite Hlive, length_app in L1.
  assert (Hc1 : 0 <= count q1) by (destruct Hq1 as (_ & _ & ? & _); lia).
  destruct (pops_ok (Z.to_nat (count q) + length xs) q1 Hq1)
    as (q2 & E2 & _ & _ & Hc2 & _); [lia|].
  rewrite take_ge in E2 by (rewrite Hlive, length_app; lia).
  exists (live q), q', q1, q2.
  split; [exact E0|]. split; [exact E1|]. split; [|lia].
  rewrite E2, Hlive. reflexivity.
Qed.

(** C3: [Push] on a queue that earlier calls left in any state returns
    normally; it writes the element into slot [rear] and moves [rear] on by
    one modulo the capacity; when the queue was full it moves [front] on by
    one modulo the capacity and keeps [count], otherwise it keeps [front] and
    adds one to [count]. *)
Theorem Push_effect n ops q0 q x :
  1 <= n <= INT_MAX ->
  Queue_ctor n = inr q0 -> after ops q0 = Some q ->
  exists q',
    Push x q = Ret tt q' /\
    elements q' = <[Z.to_nat (rear q) := x]> (elements q) /\
    elements q' !! Z.to_nat (rear q) = Some x /\
    rear q' = (rear q + 1) mod size q /\
    (count q = size q ->
       front q' = (front q + 1) mod size q /\ count q' = count q) /\
    (count q <> size q ->
       front q' = front q /\ count q' = count q + 1).
Proof.
  intros Hn Hc Ha.
  destruct (reached_inv n ops q0 q Hn Hc Ha) as (Hq & _).
  pose proof (inv_rear_range q Hq) as Hr.
  exists (pushed x q). split; [now apply Push_pushed|].
  destruct Hq as (Hs & Hl & _).
  unfold pushed. simpl.
  split; [reflexivity|].
  split; [apply list_lookup_insert_eq; lia|].
  split; [reflexivity|].
  destruct (Z.eqb_spec (count q) (size q)); split; intros ?; try lia; split; reflexivity.
Qed.

(** C4: after construction with capacity [n >= 1] and any sequence of [Push],
    [Pop] and [PopWithTimeout] calls (with whatever other threads do during
    the waits), the calls leave an object with [0 <= count <= capacity] and
    [rear = (front + count) mod capacity], and with [front = rear] when
    [count = 0]. *)
Theorem invariants_hold n ops q0 :
  1 <= n <= INT_MAX ->
  Queue_ctor n = inr q0 ->
  exists q,
    after ops q0 = Some q /\ size q = n /\
    0 <= count q <= size q /\
    rear q = (front q + count q) mod size q /\
    (count q = 0 -> front q = rear q).
Proof.
  intros Hn Hc. destruct (ctor_ok n Hn) as (E & H0).
  rewrite E in Hc. injection Hc as <-.
  destruct (after_ok ops _ H0) as (q & Ha & Hq).
  exists q. split; [exact Ha|].
  split; [exact (after_size _ _ _ Ha)|].
  destruct Hq as (Hs & _ & Hcq & Hf & Hr).
  split; [exact Hcq|]. split; [exact Hr|].
  intros Hz. rewrite Hr, Hz, Z.add_0_r. symmetry. apply Z.mod_small. lia.
Qed.

(** C5: when [PopWithTimeout] ends in the timeout error, the object is
    exactly what the other threads' own calls during the wait made of it: the
    failed call has written nothing.  With no other thread at work, [front],
    [count], [rear] and the slots are the same after the call as before. *)
Theorem PopWithTimeout_timeout_no_mutation ms sch q e q' :
  PopWithTimeout ms sch q = Throw e q' ->
  e = runtime_error timeout_message /\
  interfere (others_during ms sch) q = Ret tt q' /\
  (others_during ms sch = [] ->
     front q' = front q /\ count q' = count q /\ rear q' = rear q /\
     elements q' = elements q /\ size q' = size q).
Proof.
  intros H. destruct (PopWithTimeout_Throw ms sch q e q' H) as (He & Hw).
  apply wait_until_false in Hw. destruct Hw as (Hi & _).
  split; [exact He|]. split; [exact Hi|].
  intros Hidle. unfold others_during in Hidle. rewrite Hidle in Hi.
  simpl in Hi. injection Hi as <-. repeat split; reflexivity.
Qed.

(** C6: on a non-empty queue [PopWithTimeout(d)], [d >= 0], is the same as
    [Pop()]: same returned element, same object afterwards. *)
Theorem PopWithTimeout_as_Pop d sch ws q :
  0 < count q -> 0 <= d ->
  PopWithTimeout d sch q = Pop ws q /\
  (inv q -> exists y, elements q !! Z.to_nat (front q) = Some y /\
                      Pop ws q = Ret y (popped q)).
Proof.
  intros Hpos Hd. split.
  - unfold PopWithTimeout, Pop, wait_for. unfold bind at 1 12.
    rewrite wait_until_ready, wait_ready by exact Hpos. reflexivity.
  - intros Hq. now apply Pop_popped.
Qed.

Lemma bind_cong_l {A B} (m m' : M A) (k : A -> M B) q :
  m q = m' q -> bind m k q = bind m' k q.
Proof. unfold bind. now intros ->. Qed.

Lemma bind_assoc {A B C} (m : M A) (k : A -> M B) (h : B -> M C) q :
  bind (bind m k) h q = bind m (fun a => bind (k a) h) q.
Proof. unfold bind. now destruct (m q). Qed.

Lemma wait_for_zero_empty sch q :
  count q <= 0 ->
  wait_for 0 sch q = bind (interfere (final sch)) (fun _ => wait_for 0 idle) q.
Proof.
  intros Hz. unfold wait_for. simpl.
  destruct (Z.ltb_spec 0 (count q)); [lia|].
  unfold bind. destruct (interfere (final sch) q) as [[] q1|e q1|q1|f]; try reflexivity.
  unfold get, ret. now destruct (0 <? count q1) eqn:E.
Qed.

(** C7 (as the constructor behaves): construction with capacity [n >= 1]
    gives an empty queue of [n] slots with [count = 0] and
    [front = rear = 0]; the constructor checks nothing itself, so capacity 0
    is accepted and gives a queue without slots, and a negative capacity is
    stopped only by the array allocation, which throws
    [bad_array_new_length]. *)
Theorem ctor_behaviour n :
  (1 <= n ->
     exists q, Queue_ctor n = inr q /\
               count q = 0 /\ front q = 0 /\ rear q = 0 /\ size q = n /\
               Z.of_nat (length (elements q)) = n) /\
  (n = 0 -> Queue_ctor n = inr (mkQueue [] 0 0 0 0)) /\
  (n < 0 -> Queue_ctor n = inl bad_array_new_length).
Proof.
  unfold Queue_ctor. split; [|split].
  - intros Hn. destruct (Z.ltb_spec n 0); [lia|].
    eexists. split; [reflexivity|]. simpl. rewrite length_replicate.
    repeat split; lia.
  - intros ->. reflexivity.
  - intros Hn. destruct (Z.ltb_spec n 0); [reflexivity | lia].
Qed.

(** C8: with a zero duration [PopWithTimeout] does not sleep until a
    notification: on a non-empty queue it pops and returns the element at
    [front]; on an empty queue it looks once more after the wait that is
    already over, and with no other thread getting in between it fails with
    the timeout error at once, the object untouched. *)
Theorem PopWithTimeout_zero n ops q0 q sch :
  1 <= n <= INT_MAX ->
  Queue_ctor n = inr q0 -> after ops q0 = Some q ->
  (0 < count q ->
     exists y, elements q !! Z.to_nat (front q) = Some y /\
               PopWithTimeout 0 sch q = Ret y (popped q)) /\
  (count q = 0 -> final sch = [] ->
     PopWithTimeout 0 sch q = Throw (runtime_error timeout_message) q) /\
  (count q = 0 ->
     PopWithTimeout 0 sch q =
       bind (interfere (final sch)) (fun _ => PopWithTimeout 0 idle) q).
Proof.
  intros Hn Hc Ha.
  destruct (reached_inv n ops q0 q Hn Hc Ha) as (Hq & _).
  split; [|split].
  - intros Hpos. destruct (Pop_popped [] q Hq Hpos) as (y & Hy & E).
    exists y. split; [exact Hy|]. rewrite <- E.
    apply PopWithTimeout_arrived; [|exact Hpos].
    unfold wait_for. now apply wait_until_ready.
  - intros Hz Hf. apply PopWithTimeout_expired.
    unfold wait_for. simpl. rewrite Hf.
    destruct (Z.ltb_spec 0 (count q)); [lia|].
    unfold bind, get, ret. simpl.
    destruct (Z.ltb_spec 0 (count q)); [lia | reflexivity].
  - intros Hz. unfold PopWithTimeout.
    erewrite bind_cong_l by (apply wait_for_zero_empty; lia).
    apply bind_assoc.
Qed.

(** C9: [Size()] returns the capacity given at construction, whatever
    [Push], [Pop], [PopWithTimeout], [Count] and [Size] calls have run
    since, and returning it changes nothing. *)
Theorem Size_constant n ops q0 q :
  Queue_ctor n = inr q0 -> after ops q0 = Some q ->
  Size q = Ret n q.
Proof.
  intros Hc Ha. unfold Size, get. f_equal.
  rewrite (after_size ops q0 q Ha).
  unfold Queue_ctor in Hc. destruct (n <? 0); [discriminate|].
  injection Hc as <-. reflexivity.
Qed.

(** C10: after construction with capacity [n >= 1] no sequence of calls runs
    into undefined behaviour: [front] and [rear] stay inside the array of
    [n] slots, the divisor [size] is not zero, and the next [Push], [Pop] or
    [PopWithTimeout] again makes no access outside the array and no division
    by zero. *)
Theorem no_undefined_behaviour n ops q0 :
  1 <= n <= INT_MAX ->
  Queue_ctor n = inr q0 ->
  exists q,
    after ops q0 = Some q /\
    Z.of_nat (length (elements q)) = n /\ size q <> 0 /\
    0 <= front q < Z.of_nat (length (elements q)) /\
    0 <= rear q < Z.of_nat (length (elements q)) /\
    (forall x f, Push x q <> Undefined f) /\
    (forall ws f, Pop ws q <> Undefined f) /\
    (forall ms sch f, PopWithTimeout ms sch q <> Undefined f).
Proof.
  intros Hn Hc. destruct (ctor_ok n Hn) as (E & H0).
  rewrite E in Hc. injection Hc as <-.
  destruct (after_ok ops _ H0) as (q & Ha & Hq).
  pose proof (after_size _ _ _ Ha) as Hsz. simpl in Hsz.
  pose proof (inv_rear_range q Hq) as Hr.
  assert (Hq' := Hq). destruct Hq' as (Hs & Hl & _ & Hf & _).
  exists q. split; [exact Ha|].
  split; [lia|]. split; [lia|]. split; [lia|]. split; [lia|].
  split; [|split].
  - intros x f Hu. destruct (exec_ok (op_Push x) q Hq) as (q' & E' & _).
    simpl in E'. rewrite Hu in E'. discriminate.
  - intros ws f Hu. destruct (exec_ok (op_Pop ws) q Hq) as (q' & E' & _).
    simpl in E'. rewrite Hu in E'. discriminate.
  - intros ms sch f Hu.
    destruct (exec_ok (op_PopWithTimeout ms sch) q Hq) as (q' & E' & _).
    simpl in E'. rewrite Hu in E'. discriminate.
Qed.

(** ** Further properties of the member functions *)

Lemma live_pushed_lastn x q :
  inv q -> live (pushed x q) = lastn (Z.to_nat (size q)) (live q ++ [x]).
Proof.
  intros Hq. rewrite live_pushed by exact Hq.
  pose proof (length_live q Hq) as Hlen.
  destruct Hq as (Hs & _ & Hc & _).
  destruct (Z.eqb_spec (count q) (size q)) as [E|E].
  - rewrite lastn_snoc_full by lia. reflexivity.
  - rewrite lastn_all; [reflexivity|]. rewrite length_app. simpl. lia.
Qed.

Lemma pops_all q :
  inv q ->
  exists q', pops (Z.to_nat (count q)) q = Ret (live q) q' /\ inv q' /\
             size q' = size q /\ count q' = 0.
Proof.
  intros Hq. pose proof (length_live q Hq) as Hlen.
  assert (Hc : 0 <= count q) by (destruct Hq as (_ & _ & ? & _); lia).
  destruct (pops_ok (Z.to_nat (count q)) q Hq) as (q' & E & Hq' & Hsz & Hc' & _); [lia|].
  rewrite take_ge in E by lia.
  exists q'. split; [exact E|]. split; [exact Hq'|]. split; [exact Hsz | lia].
Qed.

Lemma PopWithTimeout_idle_empty ms q :
  count q <= 0 ->
  PopWithTimeout ms idle q = Throw (runtime_error timeout_message) q.
Proof.
  intros Hz. apply PopWithTimeout_expired. unfold wait_for, idle. simpl.
  destruct (ms <=? 0); simpl;
    (destruct (Z.ltb_spec 0 (count q)); [lia|]);
    unfold bind, get, ret; simpl;
    (destruct (Z.ltb_spec 0 (count q)); [lia | reflexivity]).
Qed.

Lemma PopWithTimeout_ready ms sch q :
  inv q -> 0 < count q ->
  exists y, elements q !! Z.to_nat (front q) = Some y /\
            PopWithTimeout ms sch q = Ret y (popped q).
Proof.
  intros Hq Hpos. destruct (Pop_popped [] q Hq Hpos) as (y & Hy & E).
  exists y. split; [exact Hy|]. rewrite <- E.
  apply PopWithTimeout_arrived; [|exact Hpos].
  unfold wait_for. now apply wait_until_ready.
Qed.

Lemma live_empty q : inv q -> count q = 0 -> live q = [].
Proof.
  intros Hq Hz. apply length_zero_iff_nil. rewrite length_live by exact Hq. lia.
Qed.

Lemma serve_ok w q :
  inv q ->
  exists q',
    serve w q = Ret (fst (list_serve (Z.to_nat (size q)) w (live q))) q' /\
    inv q' /\ size q' = size q /\
    live q' = snd (list_serve (Z.to_nat (size q)) w (live q)).
Proof.
  revert q. induction w as [|[x|] w IH]; intros q Hq.
  - exists q. split; [reflexivity|]. split; [exact Hq|]. split; reflexivity.
  - destruct (IH (pushed x q) (inv_pushed x q Hq)) as (q' & E & Hq' & Hsz & Hl).
    rewrite live_pushed_lastn in E, Hl by exact Hq. simpl size in *.
    exists q'. cbn [serve list_serve]. unfold bind at 1.
    rewrite Push_pushed by exact Hq.
    split; [exact E|]. split; [exact Hq'|]. split; [exact Hsz | exact Hl].
  - cbn [serve list_serve].
    destruct (Z_lt_le_dec 0 (count q)) as [Hpos|Hz].
    + destruct (PopWithTimeout_ready 0 idle q Hq Hpos) as (y & Hy & E).
      pose proof (live_popped q y Hq Hpos Hy) as Hlive.
      destruct (IH (popped q) (inv_popped q Hq Hpos)) as (q' & E' & Hq' & Hsz & Hl).
      simpl size in *. rewrite Hlive.
      destruct (list_serve (Z.to_nat (size q)) w (live (popped q))) as [ys rest] eqn:LS.
      exists q'. unfold bind at 1. unfold try_catch. unfold bind at 1.
      rewrite E. unfold ret at 1. unfold bind. rewrite E'. simpl.
      split; [reflexivity|]. split; [exact Hq'|]. split; [exact Hsz | exact Hl].
    + assert (Hc0 : count q = 0) by (destruct Hq as (_ & _ & ? & _); lia).
      rewrite (live_empty q Hq Hc0) in *.
      destruct (IH q Hq) as (q' & E' & Hq' & Hsz & Hl).
      rewrite (live_empty q Hq Hc0) in *.
      exists q'. unfold bind at 1. unfold try_catch. unfold bind at 1.
      rewrite PopWithTimeout_idle_empty by exact Hz.
      unfold ret at 1. unfold bind. rewrite E'. simpl.
      split; [reflexivity|]. split; [exact Hq'|]. split; [exact Hsz | exact Hl].
Qed.

Lemma lastn_sublist {A} n (l : list A) : lastn n l `sublist_of` l.
Proof. unfold lastn. apply sublist_drop. Qed.

Lemma list_serve_sublist n w l :
  fst (list_serve n w l) ++ snd (list_serve n w l)
    `sublist_of` l ++ pushed_values w.
Proof.
  revert l. induction w as [|[x|] w IH]; intros l; simpl.
  - rewrite app_nil_r. reflexivity.
  - etransitivity; [apply IH|].
    replace (l ++ x :: pushed_values w) with ((l ++ [x]) ++ pushed_values w)
      by (rewrite <- app_assoc; reflexivity).
    apply sublist_app; [apply lastn_sublist | reflexivity].
  - destruct l as [|y l'].
    + apply IH.
    + specialize (IH l'). destruct (list_serve n w l') as [ys rest]. simpl in *.
      now apply sublist_skip.
Qed.

Lemma interfere_pops_empty w q :
  forallb is_pop w = true -> count q <= 0 -> interfere w q = Ret tt q.
Proof.
  induction w as [|[x|] w IH]; simpl; intros Hw Hz; try discriminate.
  - reflexivity.
  - unfold bind at 1. unfold bind at 1. unfold get at 1.
    destruct (Z.ltb_spec 0 (count q)); [lia|]. unfold ret at 1.
    now apply IH.
Qed.

Lemma wait_push_free quiet ws q :
  push_free quiet = true -> count q <= 0 -> wait (quiet ++ ws) q = wait ws q.
Proof.
  induction quiet as [|w quiet IH]; simpl; intros Hw Hz; [reflexivity|].
  apply andb_prop in Hw. destruct Hw as [Hw Hquiet].
  destruct (Z.ltb_spec 0 (count q)); [lia|].
  unfold bind. rewrite interfere_pops_empty by assumption. now apply IH.
Qed.

Lemma wait_until_push_free quiet e f q :
  push_free quiet = true -> count q <= 0 ->
  wait_until (quiet ++ e) f q = wait_until e f q.
Proof.
  induction quiet as [|w quiet IH]; simpl; intros Hw Hz; [reflexivity|].
  apply andb_prop in Hw. destruct Hw as [Hw Hquiet].
  destruct (Z.ltb_spec 0 (count q)); [lia|].
  unfold bind. rewrite interfere_pops_empty by assumption. now apply IH.
Qed.

Lemma wait_until_expires_empty f q :
  forallb is_pop f = true -> count q <= 0 -> wait_until [] f q = Ret false q.
Proof.
  intros Hf Hz. simpl. destruct (Z.ltb_spec 0 (count q)); [lia|].
  unfold bind. rewrite interfere_pops_empty by assumption.
  unfold get, ret. destruct (Z.ltb_spec 0 (count q)); [lia | reflexivity].
Qed.

Lemma act_pop_popped q :
  inv q -> 0 < count q -> act other_pop q = Ret tt (popped q).
Proof.
  intros (Hs & Hl & Hc & Hf & _) Hpos. unfold INT_MAX in Hs.
  destruct (load_ok (front q) q) as (y & Hy & Hld); [lia|].
  cbn [act]. unfold bind at 1. unfold get at 1.
  destruct (Z.ltb_spec 0 (count q)); [|lia].
  unfold bind, get. rewrite Hld.
  rewrite int_add_ok by (unfold INT_MIN, INT_MAX; lia).
  rewrite int_rem_ok by lia. unfold put. simpl.
  rewrite int_add_ok by (unfold INT_MIN, INT_MAX; lia).
  reflexivity.
Qed.

(** The object after [Push x] and a [Pop] on an empty, sound queue: empty
    again, one slot further on. *)
Lemma popped_pushed_empty x q :
  inv q -> count q = 0 ->
  inv (pushed x q) /\ 0 < count (pushed x q) /\
  elements (pushed x q) !! Z.to_nat (front (pushed x q)) = Some x /\
  count (popped (pushed x q)) = 0 /\
  size (popped (pushed x q)) = size q /\
  front (popped (pushed x q)) = (front q + 1) mod size q.
Proof.
  intros Hq Hz. pose proof (inv_pushed x q Hq) as Hp.
  destruct Hq as (Hs & Hl & Hc & Hf & Hr).
  assert (Hrf : rear q = front q).
  { rewrite Hr, Hz, Z.add_0_r. apply Z.mod_small. lia. }
  split; [exact Hp|]. unfold pushed, popped. simpl.
  destruct (Z.eqb_spec (count q) (size q)) as [E|E]; [lia|].
  split; [lia|]. split; [|split; [lia|split; reflexivity]].
  rewrite Hrf. apply list_lookup_insert_eq. lia.
Qed.

(** X1: [Pop] on a non-empty queue never waits, whatever the schedule: it
    returns the element in slot [front], moves [front] on by one modulo the
    capacity, takes one off [count], and leaves [rear], the slots and the
    capacity as they were. *)
Theorem Pop_effect n ops q0 q ws :
  1 <= n <= INT_MAX ->
  Queue_ctor n = inr q0 -> after ops q0 = Some q ->
  0 < count q ->
  exists y q',
    Pop ws q = Ret y q' /\
    elements q !! Z.to_nat (front q) = Some y /\
    front q' = (front q + 1) mod size q /\
    count q' = count q - 1 /\
    rear q' = rear q /\ elements q' = elements q /\ size q' = size q.
Proof.
  intros Hn Hc Ha Hpos.
  destruct (reached_inv n ops q0 q Hn Hc Ha) as (Hq & _).
  destruct (Pop_popped ws q Hq Hpos) as (y & Hy & E).
  exists y, (popped q). split; [exact E|]. split; [exact Hy|].
  repeat split; reflexivity.
Qed.

(** X2: from any state, pushing [xs] leaves [min(capacity, count + |xs|)]
    elements, and popping them all returns the last [capacity] entries of
    (what was queued before, then [xs]), oldest first. *)
Theorem pushes_then_pops n ops xs q0 q :
  1 <= n <= INT_MAX ->
  Queue_ctor n = inr q0 -> after ops q0 = Some q ->
  exists old q_ q1 q2,
    pops (Z.to_nat (count q)) q = Ret old q_ /\
    pushes xs q = Ret tt q1 /\
    count q1 = Z.min n (count q + Z.of_nat (length xs)) /\
    pops (Z.to_nat (count q1)) q1 = Ret (lastn (Z.to_nat n) (old ++ xs)) q2 /\
    count q2 = 0.
Proof.
  intros Hn Hc Ha.
  destruct (reached_inv n ops q0 q Hn Hc Ha) as (Hq & Hs0 & _).
  pose proof (after_size ops q0 q Ha) as Hsz. rewrite Hs0 in Hsz.
  pose proof (length_live q Hq) as Lq.
  assert (Hcq : 0 <= count q <= n) by (destruct Hq as (_ & _ & ? & _); lia).
  destruct (pops_all q Hq) as (q_ & E0 & _).
  destruct (pushes_ok xs q Hq) as (q1 & E1 & Hq1 & Hsz1 & Hlive).
  rewrite Hsz in Hlive.
  destruct (pops_all q1 Hq1) as (q2 & E2 & _ & _ & Hc2).
  pose proof (length_live q1 Hq1) as L1.
  assert (Hc1 : 0 <= count q1) by (destruct Hq1 as (_ & _ & ? & _); lia).
  exists (live q), q_, q1, q2.
  split; [exact E0|]. split; [exact E1|].
  split; [|split; [rewrite E2, Hlive; reflexivity | exact Hc2]].
  rewrite Hlive in L1. unfold lastn in L1.
  rewrite length_drop, length_app in L1. lia.
Qed.

(** X3: any sequence of completed [Push] and polling [PopWithTimeout] calls
    behaves as the same sequence on a plain list bounded by the capacity:
    the consumer gets the same elements in the same order, and what is left
    in the queue is what is left in the list. *)
Theorem serve_as_list n ops q0 q w :
  1 <= n <= INT_MAX ->
  Queue_ctor n = inr q0 -> after ops q0 = Some q ->
  exists old q_ q' q'',
    pops (Z.to_nat (count q)) q = Ret old q_ /\
    serve w q = Ret (fst (list_serve (Z.to_nat n) w old)) q' /\
    pops (Z.to_nat (count q')) q' = Ret (snd (list_serve (Z.to_nat n) w old)) q''.
Proof.
  intros Hn Hc Ha.
  destruct (reached_inv n ops q0 q Hn Hc Ha) as (Hq & Hs0 & _).
  pose proof (after_size ops q0 q Ha) as Hsz. rewrite Hs0 in Hsz.
  destruct (pops_all q Hq) as (q_ & E0 & _).
  destruct (serve_ok w q Hq) as (q' & E & Hq' & _ & Hl).
  rewrite Hsz in E, Hl.
  destruct (pops_all q' Hq') as (q'' & E2 & _).
  exists (live q), q_, q', q''.
  split; [exact E0|]. split; [exact E|]. rewrite E2, Hl. reflexivity.
Qed.

(** X4: on a fresh queue, whatever the order of the producer's and the
    consumer's calls, the consumer gets a subsequence of the pushed elements:
    nothing it never was given, nothing twice, nothing out of order. *)
Theorem served_in_push_order n q0 w :
  1 <= n <= INT_MAX ->
  Queue_ctor n = inr q0 ->
  exists ys q, serve w q0 = Ret ys q /\ ys `sublist_of` pushed_values w.
Proof.
  intros Hn Hc. destruct (ctor_ok n Hn) as (E & H0).
  rewrite E in Hc. injection Hc as <-.
  destruct (serve_ok w _ H0) as (q & Es & _).
  rewrite (live_empty _ H0 eq_refl) in Es. simpl size in Es.
  eexists. exists q. split; [exact Es|].
  etransitivity; [|apply (list_serve_sublist (Z.to_nat n) w [])].
  apply sublist_inserts_r. reflexivity.
Qed.

Lemma Pop_push_free_empty ws q :
  push_free ws = true -> count q <= 0 -> Pop ws q = Blocked q.
Proof.
  intros Hw Hz. unfold Pop. unfold bind at 1.
  rewrite <- (app_nil_r ws), wait_push_free by auto.
  simpl. destruct (Z.ltb_spec 0 (count q)); [lia | reflexivity].
Qed.

(** X5: [Pop] on an empty queue stays blocked, the object untouched, as
    long as no other thread pushes: spurious wake-ups and other consumers
    that find the queue empty too make no difference. *)
Theorem Pop_blocks_without_push ws q :
  push_free ws = true -> count q = 0 -> Pop ws q = Blocked q.
Proof. intros Hw Hz. apply Pop_push_free_empty; [exact Hw | lia]. Qed.

(** X6: [PopWithTimeout] on an empty queue, for every duration, ends in the
    timeout error with the object untouched when no other thread pushes
    during the wait. *)
Theorem PopWithTimeout_times_out_without_push ms sch q :
  push_free (early sch) = true -> forallb is_pop (final sch) = true ->
  count q = 0 ->
  PopWithTimeout ms sch q = Throw (runtime_error timeout_message) q.
Proof.
  intros He Hf Hz. apply PopWithTimeout_expired. unfold wait_for.
  destruct (ms <=? 0).
  - apply wait_until_expires_empty; [exact Hf | lia].
  - rewrite <- (app_nil_r (early sch)), wait_until_push_free by (auto; lia).
    apply wait_until_expires_empty; [exact Hf | lia].
Qed.

(** X7: a [Pop] blocked on an empty queue returns [x] as soon as it wakes up
    after another thread's [Push(x)], and leaves the queue empty. *)
Theorem Pop_released_by_push n ops q0 q quiet x ws :
  1 <= n <= INT_MAX ->
  Queue_ctor n = inr q0 -> after ops q0 = Some q ->
  count q = 0 -> push_free quiet = true ->
  exists q',
    Pop (quiet ++ [other_push x] :: ws) q = Ret x q' /\
    count q' = 0 /\ size q' = size q.
Proof.
  intros Hn Hc Ha Hz Hquiet.
  destruct (reached_inv n ops q0 q Hn Hc Ha) as (Hq & _).
  destruct (popped_pushed_empty x q Hq Hz) as (Hp & Hpos & Hx & Hc' & Hs' & _).
  exists (popped (pushed x q)). split; [|split; [exact Hc' | exact Hs']].
  assert (Hw : wait (quiet ++ [other_push x] :: ws) q = Ret tt (pushed x q)).
  { rewrite wait_push_free by (auto; lia). simpl.
    destruct (Z.ltb_spec 0 (count q)); [lia|].
    unfold bind. rewrite Push_pushed by exact Hq. unfold ret.
    now apply wait_ready. }
  rewrite (Pop_after_wait _ _ _ Hw Hpos).
  destruct (Pop_popped [] _ Hp Hpos) as (y & Hy & E).
  rewrite Hx in Hy. injection Hy as <-. exact E.
Qed.

(** X8: with a positive duration, [PopWithTimeout] on an empty queue returns
    [x] when another thread's [Push(x)] comes before the deadline, and leaves
    the queue empty. *)
Theorem PopWithTimeout_released_by_push n ops q0 q ms quiet x e f :
  1 <= n <= INT_MAX ->
  Queue_ctor n = inr q0 -> after ops q0 = Some q ->
  count q = 0 -> 0 < ms -> push_free quiet = true ->
  exists q',
    PopWithTimeout ms (mkTimed (quiet ++ [other_push x] :: e) f) q = Ret x q' /\
    count q' = 0 /\ size q' = size q.
Proof.
  intros Hn Hc Ha Hz Hms Hquiet.
  destruct (reached_inv n ops q0 q Hn Hc Ha) as (Hq & _).
  destruct (popped_pushed_empty x q Hq Hz) as (Hp & Hpos & Hx & Hc' & Hs' & _).
  exists (popped (pushed x q)). split; [|split; [exact Hc' | exact Hs']].
  assert (Hw : wait_for ms (mkTimed (quiet ++ [other_push x] :: e) f) q
               = Ret true (pushed x q)).
  { unfold wait_for. simpl. destruct (Z.leb_spec ms 0); [lia|].
    rewrite wait_until_push_free by (auto; lia). simpl.
    destruct (Z.ltb_spec 0 (count q)); [lia|].
    unfold bind. rewrite Push_pushed by exact Hq. unfold ret.
    now apply wait_until_ready. }
  rewrite (PopWithTimeout_arrived _ _ _ _ Hw Hpos).
  destruct (Pop_popped [] _ Hp Hpos) as (y & Hy & E).
  rewrite Hx in Hy. injection Hy as <-. exact E.
Qed.

(** X9: an element pushed during the very sleep that runs into the deadline
    is not missed: [PopWithTimeout] looks at [count] once more after the
    timeout and returns it, for every duration. *)
Theorem PopWithTimeout_last_look n ops q0 q ms quiet x :
  1 <= n <= INT_MAX ->
  Queue_ctor n = inr q0 -> after ops q0 = Some q ->
  count q = 0 -> push_free quiet = true ->
  exists q',
    PopWithTimeout ms (mkTimed quiet [other_push x]) q = Ret x q' /\
    count q' = 0 /\ size q' = size q.
Proof.
  intros Hn Hc Ha Hz Hquiet.
  destruct (reached_inv n ops q0 q Hn Hc Ha) as (Hq & _).
  destruct (popped_pushed_empty x q Hq Hz) as (Hp & Hpos & Hx & Hc' & Hs' & _).
  exists (popped (pushed x q)). split; [|split; [exact Hc' | exact Hs']].
  assert (Hlast : wait_until [] [other_push x] q = Ret true (pushed x q)).
  { simpl. destruct (Z.ltb_spec 0 (count q)); [lia|].
    unfold bind. rewrite Push_pushed by exact Hq. unfold ret, get.
    destruct (Z.ltb_spec 0 (count (pushed x q))); [reflexivity | lia]. }
  assert (Hw : wait_for ms (mkTimed quiet [other_push x]) q = Ret true (pushed x q)).
  { unfold wait_for. simpl early. simpl final. destruct (ms <=? 0); [exact Hlast|].
    rewrite <- (app_nil_r quiet), wait_until_push_free by (auto; lia).
    exact Hlast. }
  rewrite (PopWithTimeout_arrived _ _ _ _ Hw Hpos).
  destruct (Pop_popped [] _ Hp Hpos) as (y & Hy & E).
  rewrite Hx in Hy. injection Hy as <-. exact E.
Qed.

(** X10: when the element pushed for a sleeping caller has been taken by
    another consumer before the caller gets the mutex back, the caller finds
    [count = 0] again: [Pop] goes on sleeping and [PopWithTimeout] times
    out, neither reads a slot, and [front] has moved on by the one element
    that passed through. *)
Theorem stolen_wakeup n ops q0 q x ms :
  1 <= n <= INT_MAX ->
  Queue_ctor n = inr q0 -> after ops q0 = Some q ->
  count q = 0 ->
  exists q',
    Pop [[other_push x; other_pop]] q = Blocked q' /\
    PopWithTimeout ms (mkTimed [] [other_push x; other_pop]) q
      = Throw (runtime_error timeout_message) q' /\
    count q' = 0 /\ front q' = (front q + 1) mod size q.
Proof.
  intros Hn Hc Ha Hz.
  destruct (reached_inv n ops q0 q Hn Hc Ha) as (Hq & _).
  destruct (popped_pushed_empty x q Hq Hz) as (Hp & Hpos & Hx & Hc' & Hs' & Hf').
  assert (Hi : interfere [other_push x; other_pop] q = Ret tt (popped (pushed x q))).
  { cbn [interfere]. unfold bind.
    change (act (other_push x) q) with (Push x q).
    rewrite Push_pushed by exact Hq.
    rewrite act_pop_popped by assumption. reflexivity. }
  exists (popped (pushed x q)).
  split; [|split; [|split; [exact Hc' | exact Hf']]].
  - unfold Pop. unfold bind at 1. cbn [wait].
    destruct (Z.ltb_spec 0 (count q)); [lia|].
    unfold bind. rewrite Hi. cbn [wait].
    destruct (Z.ltb_spec 0 (count (popped (pushed x q)))); [lia | reflexivity].
  - apply PopWithTimeout_expired. unfold wait_for. simpl early. simpl final.
    assert (Hlast : wait_until [] [other_push x; other_pop] q
                    = Ret false (popped (pushed x q))).
    { cbn [wait_until]. destruct (Z.ltb_spec 0 (count q)); [lia|].
      unfold bind. rewrite Hi. unfold get, ret.
      destruct (Z.ltb_spec 0 (count (popped (pushed x q)))); [lia | reflexivity]. }
    destruct (ms <=? 0); exact Hlast.
Qed.

(** X11: [Pop] never throws: it returns an element, leaving fewer than
    [capacity] elements behind, or the caller is still asleep on an empty
    queue. *)
Theorem Pop_returns_or_blocks n ops q0 q ws :
  1 <= n <= INT_MAX ->
  Queue_ctor n = inr q0 -> after ops q0 = Some q ->
  (exists y q', Pop ws q = Ret y q' /\ 0 <= count q' < n) \/
  (exists q', Pop ws q = Blocked q' /\ count q' = 0).
Proof.
  intros Hn Hc Ha.
  destruct (reached_inv n ops q0 q Hn Hc Ha) as (Hq & Hs0 & _).
  pose proof (after_size ops q0 q Ha) as Hsz. rewrite Hs0 in Hsz.
  destruct (wait_ok ws q Hq) as (q1 & H1 & [[E Hpos]|[E Hz]]).
  - left. rewrite (Pop_after_wait ws q q1 E Hpos).
    destruct (Pop_popped [] q1 H1 Hpos) as (y & _ & E').
    exists y, (popped q1). split; [exact E'|].
    pose proof (ks_wait ws q q1) as Hk. rewrite E in Hk. specialize (Hk eq_refl).
    destruct H1 as (_ & _ & Hc1 & _). simpl. lia.
  - right. exists q1. split; [|exact Hz]. unfold Pop, bind. now rewrite E.
Qed.

(** X12: [PopWithTimeout] always comes back: with an element, or with the
    timeout error on a queue that is empty; it never leaves the caller
    blocked. *)
Theorem PopWithTimeout_returns_or_times_out n ops q0 q ms sch :
  1 <= n <= INT_MAX ->
  Queue_ctor n = inr q0 -> after ops q0 = Some q ->
  (exists y q', PopWithTimeout ms sch q = Ret y q' /\ 0 <= count q' < n) \/
  (exists q', PopWithTimeout ms sch q = Throw (runtime_error timeout_message) q' /\
              count q' = 0).
Proof.
  intros Hn Hc Ha.
  destruct (reached_inv n ops q0 q Hn Hc Ha) as (Hq & Hs0 & _).
  pose proof (after_size ops q0 q Ha) as Hsz. rewrite Hs0 in Hsz.
  destruct (wait_until_ok (if ms <=? 0 then [] else early sch) (final sch) q Hq)
    as (q1 & H1 & [[E Hpos]|[E Hz]]).
  - left. rewrite (PopWithTimeout_arrived ms sch q q1 E Hpos).
    destruct (Pop_popped [] q1 H1 Hpos) as (y & _ & E').
    exists y, (popped q1). split; [exact E'|].
    pose proof (ks_wait_until (if ms <=? 0 then [] else early sch) (final sch) q q1) as Hk.
    rewrite E in Hk. specialize (Hk eq_refl).
    destruct H1 as (_ & _ & Hc1 & _). simpl. lia.
  - right. exists q1. split; [|exact Hz]. now apply PopWithTimeout_expired.
Qed.

(** X13: the queue that construction with capacity 0 hands out cannot take
    an element: every [Push] divides by zero, also the one that would
    release a blocked [Pop]; without a push [Pop] blocks and
    [PopWithTimeout] times out; [Count()] and [Size()] are 0. *)
Theorem zero_capacity_unusable q0 :
  Queue_ctor 0 = inr q0 ->
  (forall x, Push x q0 = Undefined division_by_zero) /\
  (forall x ws, Pop ([other_push x] :: ws) q0 = Undefined division_by_zero) /\
  (forall ws, push_free ws = true -> Pop ws q0 = Blocked q0) /\
  (forall ms, PopWithTimeout ms idle q0 = Throw (runtime_error timeout_message) q0) /\
  Count q0 = Ret 0 q0 /\ Size q0 = Ret 0 q0.
Proof.
  intros Hc. unfold Queue_ctor in Hc. simpl in Hc. injection Hc as <-.
  split; [reflexivity|]. split; [reflexivity|].
  split; [intros ws Hw; apply Pop_push_free_empty; [exact Hw | simpl; lia]|].
  split; [intros ms; apply PopWithTimeout_idle_empty; simpl; lia|].
  split; reflexivity.
Qed.

End QueueModel.

Arguments mkQueue {T}.
Arguments elements {T}.
Arguments size {T}.
Arguments count {T}.
Arguments front {T}.
Arguments rear {T}.
Arguments Ret {T A}.
Arguments Throw {T A}.
Arguments Blocked {T A}.
Arguments Undefined {T A}.
Arguments bind {T A B}.
Arguments Queue_ctor {T}.
Arguments Push {T}.
Arguments Pop {T}.
Arguments PopWithTimeout {T}.
Arguments Count {T}.
Arguments Size {T}.
Arguments other_push {T}.
Arguments other_pop {T}.
Arguments interfere {T}.
Arguments mkTimed {T}.
Arguments early {T}.
Arguments final {T}.
Arguments idle {T}.
Arguments others_during {T}.
Arguments op_Push {T}.
Arguments op_Pop {T}.
Arguments op_PopWithTimeout {T}.
Arguments op_Count {T}.
Arguments op_Size {T}.
Arguments exec {T}.
Arguments after {T}.
Arguments pushes {T}.
Arguments pops {T}.
Arguments inv {T}.
Arguments popped {T}.

(** ** The calls of QueueTest/test_queue.cpp, on [Queue<int>] *)

(** BasicPushPop *)
Example BasicPushPop :
  exists q1 q2 q3 q4,
    Queue_ctor 0 2 = inr q1 /\
    bind (Push 1) (fun _ => Push 2) q1 = Ret tt q2 /\
    Pop [] q2 = Ret 1 q3 /\ Pop [] q3 = Ret 2 q4.
Proof. do 4 eexists. repeat split; reflexivity. Qed.

(** OverflowDrop *)
Example OverflowDrop :
  exists q1 q2 q3 q4,
    Queue_ctor 0 2 = inr q1 /\
    pushes [1; 2; 3] q1 = Ret tt q2 /\
    Pop [] q2 = Ret 2 q3 /\ Pop [] q3 = Ret 3 q4.
Proof. do 4 eexists. repeat split; reflexivity. Qed.

(** PopWithTimeout *)
Example PopWithTimeout_test :
  exists q1 q2 q3,
    Queue_ctor 0 2 = inr q1 /\
    PopWithTimeout 100 idle q1 = Throw (runtime_error timeout_message) q1 /\
    Push 1 q1 = Ret tt q2 /\
    PopWithTimeout 100 idle q2 = Ret 1 q3.
Proof. do 3 eexists. repeat split; reflexivity. Qed.

(** CountElements *)
Example CountElements :
  exists q0 q1 q2 q3,
    Queue_ctor 0 3 = inr q0 /\ Count q0 = Ret 0 q0 /\
    Push 1 q0 = Ret tt q1 /\ Count q1 = Ret 1 q1 /\
    Push 2 q1 = Ret tt q2 /\ Count q2 = Ret 2 q2 /\
    Pop [] q2 = Ret 1 q3 /\ Count q3 = Ret 1 q3.
Proof. do 4 eexists. repeat split; reflexivity. Qed.

(** QueueSize *)
Example QueueSize :
  exists q0, Queue_ctor 0 3 = inr q0 /\ Size q0 = Ret 3 q0.
Proof. eexists. split; reflexivity. Qed.

(** BlockingPop: the reader sleeps on the empty queue until the writer's
    [Push(5)]. *)
Example BlockingPop :
  exists q0 q1,
    Queue_ctor 0 2 = inr q0 /\
    Pop [] q0 = Blocked q0 /\
    Pop [[other_push 5]] q0 = Ret 5 q1 /\ count q1 = 0.
Proof. do 2 eexists. repeat split; reflexivity. Qed.

(** ** The properties at concrete queues of [int] *)

Lemma Push_overflow_keeps_last_witness :
  (1 <= 2 <= INT_MAX /\ 1 <= 1 /\
   Queue_ctor 0 2 = inr (mkQueue [0; 0] 2 0 0 0) /\
   after [] (mkQueue [0; 0] 2 0 0 0) = Some (mkQueue [0; 0] 2 0 0 0) /\
   Z.of_nat (length [1; 2; 3]) = 2 + 1) /\
  exists q1 q2,
    pushes [1; 2; 3] (mkQueue [0; 0] 2 0 0 0) = Ret tt q1 /\ count q1 = 2 /\
    pops 2 q1 = Ret [2; 3] q2 /\ count q2 = 0.
Proof.
  assert (Hn : 1 <= 2 <= INT_MAX) by (unfold INT_MAX; lia).
  assert (Hk : 1 <= 1) by lia.
  split.
  - split; [exact Hn|]. split; [exact Hk|]. repeat split; reflexivity.
  - exact (Push_overflow_keeps_last Z 0 2 1 [] [1; 2; 3] _ _
             Hn Hk eq_refl eq_refl eq_refl).
Defined.

Lemma Push_Pop_fifo_witness :
  (1 <= 3 <= INT_MAX /\
   Queue_ctor 0 3 = inr (mkQueue [0; 0; 0] 3 0 0 0) /\
   after [op_Push 7; op_Push 8; op_Pop []] (mkQueue [0; 0; 0] 3 0 0 0)
     = Some (mkQueue [7; 8; 0] 3 1 1 2) /\
   count (mkQueue [7; 8; 0] 3 1 1 2) + Z.of_nat (length [1; 2]) <= 3) /\
  exists old q' q1 q2,
    pops 1 (mkQueue [7; 8; 0] 3 1 1 2) = Ret old q' /\
    pushes [1; 2] (mkQueue [7; 8; 0] 3 1 1 2) = Ret tt q1 /\
    pops 3 q1 = Ret (old ++ [1; 2]) q2 /\
    count q2 = 0.
Proof.
  assert (Hn : 1 <= 3 <= INT_MAX) by (unfold INT_MAX; lia).
  assert (Hl : count (mkQueue [7; 8; 0] 3 1 1 2) + Z.of_nat (length [1; 2]) <= 3)
    by (simpl; lia).
  split.
  - split; [exact Hn|]. split; [reflexivity|]. split; [reflexivity | exact Hl].
  - exact (Push_Pop_fifo Z 0 3 [op_Push 7; op_Push 8; op_Pop []] [1; 2] _ _
             Hn eq_refl eq_refl Hl).
Defined.

Lemma Push_effect_witness :
  (1 <= 2 <= INT_MAX /\
   Queue_ctor 0 2 = inr (mkQueue [0; 0] 2 0 0 0) /\
   after [op_Push 1; op_Push 2] (mkQueue [0; 0] 2 0 0 0)
     = Some (mkQueue [1; 2] 2 2 0 0)) /\
  exists q',
    Push 3 (mkQueue [1; 2] 2 2 0 0) = Ret tt q' /\
    elements q' = [3; 2] /\
    elements q' !! 0%nat = Some 3 /\
    rear q' = 1 /\
    (2 = 2 -> front q' = 1 /\ count q' = 2) /\
    (2 <> 2 -> front q' = 0 /\ count q' = 3).
Proof.
  assert (Hn : 1 <= 2 <= INT_MAX) by (unfold INT_MAX; lia).
  split.
  - split; [exact Hn|]. split; reflexivity.
  - exact (Push_effect Z 0 2 [op_Push 1; op_Push 2] _ _ 3 Hn eq_refl eq_refl).
Defined.

Lemma invariants_hold_witness :
  (1 <= 2 <= INT_MAX /\ Queue_ctor 0 2 = inr (mkQueue [0; 0] 2 0 0 0)) /\
  exists q,
    after [op_Push 1; op_Push 2; op_Push 3; op_Pop [];
           op_PopWithTimeout 100 idle; op_PopWithTimeout 100 idle;
           op_Pop [[other_push 4; other_push 5; other_push 6]]]
          (mkQueue [0; 0] 2 0 0 0) = Some q /\
    size q = 2 /\
    0 <= count q <= size q /\
    rear q = (front q + count q) mod size q /\
    (count q = 0 -> front q = rear q).
Proof.
  assert (Hn : 1 <= 2 <= INT_MAX) by (unfold INT_MAX; lia).
  split.
  - split; [exact Hn | reflexivity].
  - exact (invariants_hold Z 0 2 _ _ Hn eq_refl).
Defined.

Lemma PopWithTimeout_timeout_no_mutation_witness :
  PopWithTimeout 100 idle (mkQueue [0; 0] 2 0 0 0)
    = Throw (runtime_error timeout_message) (mkQueue [0; 0] 2 0 0 0) /\
  (runtime_error timeout_message = runtime_error timeout_message /\
   interfere (others_during 100 idle) (mkQueue [0; 0] 2 0 0 0)
     = Ret tt (mkQueue [0; 0] 2 0 0 0) /\
   (others_during 100 (@idle Z) = [] ->
      front (mkQueue [0; 0] 2 0 0 0) = front (mkQueue [0; 0] 2 0 0 0) /\
      count (mkQueue [0; 0] 2 0 0 0) = count (mkQueue [0; 0] 2 0 0 0) /\
      rear (mkQueue [0; 0] 2 0 0 0) = rear (mkQueue [0; 0] 2 0 0 0) /\
      elements (mkQueue [0; 0] 2 0 0 0) = elements (mkQueue [0; 0] 2 0 0 0) /\
      size (mkQueue [0; 0] 2 0 0 0) = size (mkQueue [0; 0] 2 0 0 0))).
Proof.
  split.
  - reflexivity.
  - exact (PopWithTimeout_timeout_no_mutation Z 100 idle
             (mkQueue [0; 0] 2 0 0 0) _ (mkQueue [0; 0] 2 0 0 0) eq_refl).
Defined.

Lemma PopWithTimeout_as_Pop_witness :
  (0 < count (mkQueue [1; 0] 2 1 0 1) /\ 0 <= 100) /\
  PopWithTimeout 100 idle (mkQueue [1; 0] 2 1 0 1)
    = Pop [] (mkQueue [1; 0] 2 1 0 1) /\
  Pop [] (mkQueue [1; 0] 2 1 0 1) = Ret 1 (mkQueue [1; 0] 2 0 1 1).
Proof.
  assert (Hc : 0 < count (mkQueue [1; 0] 2 1 0 1)) by (simpl; lia).
  assert (Hd : 0 <= 100) by lia.
  split; [split; [exact Hc | exact Hd]|].
  split.
  - exact (proj1 (PopWithTimeout_as_Pop Z 100 idle [] (mkQueue [1; 0] 2 1 0 1) Hc Hd)).
  - reflexivity.
Defined.

Lemma ctor_behaviour_witness :
  (1 <= 2 ->
     exists q, Queue_ctor 0 2 = inr q /\
               count q = 0 /\ front q = 0 /\ rear q = 0 /\ size q = 2 /\
               Z.of_nat (length (elements q)) = 2) /\
  (2 = 0 -> Queue_ctor 0 2 = inr (mkQueue [] 0 0 0 0)) /\
  (2 < 0 -> Queue_ctor 0 2 = inl bad_array_new_length).
Proof. exact (ctor_behaviour Z 0 2). Defined.

(** C7, as the claim has it, fails at capacity 0: the constructor raises
    nothing and hands out a queue without slots, on which the first [Push]
    divides by zero. *)
Lemma ctor_zero_accepted :
  Queue_ctor 0 0 = inr (mkQueue [] 0 0 0 0) /\
  ~ (exists e : exn, Queue_ctor 0 0 = inl e) /\
  Push 1 (mkQueue [] 0 0 0 0) = Undefined division_by_zero.
Proof.
  split; [reflexivity|]. split; [|reflexivity].
  intros [e He]. discriminate He.
Qed.

Lemma PopWithTimeout_zero_witness :
  (1 <= 2 <= INT_MAX /\
   Queue_ctor 0 2 = inr (mkQueue [0; 0] 2 0 0 0) /\
   after [op_Push 1] (mkQueue [0; 0] 2 0 0 0) = Some (mkQueue [1; 0] 2 1 0 1)) /\
  PopWithTimeout 0 (mkTimed [[other_push 9]] []) (mkQueue [1; 0] 2 1 0 1)
    = Ret 1 (mkQueue [1; 0] 2 0 1 1) /\
  PopWithTimeout 0 (mkTimed [[other_push 9]] []) (mkQueue [0; 0] 2 0 0 0)
    = Throw (runtime_error timeout_message) (mkQueue [0; 0] 2 0 0 0).
Proof.
  assert (Hn : 1 <= 2 <= INT_MAX) by (unfold INT_MAX; lia).
  split; [split; [exact Hn | split; reflexivity]|].
  split.
  - destruct (proj1 (PopWithTimeout_zero Z 0 2 [op_Push 1] _ _
                       (mkTimed [[other_push 9]] []) Hn eq_refl eq_refl))
      as (y & Hy & E); [simpl; lia|].
    simpl in Hy. injection Hy as <-. exact E.
  - exact (proj1 (proj2 (PopWithTimeout_zero Z 0 2 [] _ _
                           (mkTimed [[other_push 9]] []) Hn eq_refl eq_refl))
             eq_refl eq_refl).
Defined.

Lemma Size_constant_witness :
  (Queue_ctor 0 3 = inr (mkQueue [0; 0; 0] 3 0 0 0) /\
   after [op_Push 1; op_Push 2; op_Push 3; op_Push 4; op_Pop []; op_Count;
          op_PopWithTimeout 5 idle; op_Size]
         (mkQueue [0; 0; 0] 3 0 0 0) = Some (mkQueue [4; 2; 3] 3 1 0 1)) /\
  Size (mkQueue [4; 2; 3] 3 1 0 1) = Ret 3 (mkQueue [4; 2; 3] 3 1 0 1).
Proof.
  split; [split; reflexivity|].
  exact (Size_constant Z 0 3
           [op_Push 1; op_Push 2; op_Push 3; op_Push 4; op_Pop []; op_Count;
            op_PopWithTimeout 5 idle; op_Size] _ _ eq_refl eq_refl).
Defined.

Lemma no_undefined_behaviour_witness :
  (1 <= 2 <= INT_MAX /\ Queue_ctor 0 2 = inr (mkQueue [0; 0] 2 0 0 0)) /\
  exists q,
    after [op_Push 1; op_Push 2; op_Push 3; op_Pop []; op_Pop [];
           op_PopWithTimeout 0 idle]
          (mkQueue [0; 0] 2 0 0 0) = Some q /\
    Z.of_nat (length (elements q)) = 2 /\ size q <> 0 /\
    0 <= front q < Z.of_nat (length (elements q)) /\
    0 <= rear q < Z.of_nat (length (elements q)) /\
    (forall x f, Push x q <> Undefined f) /\
    (forall ws f, Pop ws q <> Undefined f) /\
    (forall ms sch f, PopWithTimeout ms sch q <> Undefined f).
Proof.
  assert (Hn : 1 <= 2 <= INT_MAX) by (unfold INT_MAX; lia).
  split.
  - split; [exact Hn | reflexivity].
  - exact (no_undefined_behaviour Z 0 2 _ _ Hn eq_refl).
Defined.

(** ** The caller-side definitions and further properties on [Queue<int>] *)

Arguments try_catch {T A}.
Arguments ret {T A}.
Arguments serve {T}.
Arguments pushed_values {T}.
Arguments list_serve {T}.
Arguments is_pop {T}.
Arguments push_free {T}.
Arguments lastn {A}.

(** The calls of [main] in the order its sleeps produce, with the writer's
    [Push(4)] ahead of the reader's second [Pop()] as the comment in the
    source expects: the reader prints 1, 3 and 4, element 2 is dropped. *)
Example main_reader_prints :
  Queue_ctor 0 2 = inr (mkQueue [0; 0] 2 0 0 0) /\
  bind (Push 1) (fun _ =>
  bind (Push 2) (fun _ =>
  bind (Pop []) (fun a =>
  bind (Push 3) (fun _ =>
  bind (Push 4) (fun _ =>
  bind (Pop []) (fun b =>
  bind (Push 5) (fun _ =>
  bind (try_catch (bind (PopWithTimeout 200 idle) (fun c => ret [c]))
                  (fun _ => ret []))
       (fun cs => ret (a :: b :: cs))))))))) (mkQueue [0; 0] 2 0 0 0)
  = Ret [1; 3; 4] (mkQueue [5; 4] 2 1 0 1) /\
  serve [other_push 1; other_push 2; other_pop; other_push 3; other_push 4;
         other_pop; other_push 5; other_pop] (mkQueue [0; 0] 2 0 0 0)
  = Ret [1; 3; 4] (mkQueue [5; 4] 2 1 0 1).
Proof. split; [reflexivity|]. split; vm_compute; reflexivity. Qed.

Lemma Pop_effect_witness :
  (1 <= 3 <= INT_MAX /\
   Queue_ctor 0 3 = inr (mkQueue [0; 0; 0] 3 0 0 0) /\
   after [op_Push 7; op_Push 8; op_Push 9; op_Push 10]
         (mkQueue [0; 0; 0] 3 0 0 0) = Some (mkQueue [10; 8; 9] 3 3 1 1) /\
   0 < count (mkQueue [10; 8; 9] 3 3 1 1)) /\
  exists y q',
    Pop [[other_push 11]] (mkQueue [10; 8; 9] 3 3 1 1) = Ret y q' /\
    [10; 8; 9] !! 1%nat = Some y /\
    front q' = 2 /\ count q' = 2 /\
    rear q' = 1 /\ elements q' = [10; 8; 9] /\ size q' = 3.
Proof.
  assert (Hn : 1 <= 3 <= INT_MAX) by (unfold INT_MAX; lia).
  assert (Hc : 0 < count (mkQueue [10; 8; 9] 3 3 1 1)) by (simpl; lia).
  split.
  - split; [exact Hn|]. split; [reflexivity|]. split; [reflexivity | exact Hc].
  - exact (Pop_effect Z 0 3 [op_Push 7; op_Push 8; op_Push 9; op_Push 10] _ _
             [[other_push 11]] Hn eq_refl eq_refl Hc).
Defined.

Lemma pushes_then_pops_witness :
  (1 <= 3 <= INT_MAX /\
   Queue_ctor 0 3 = inr (mkQueue [0; 0; 0] 3 0 0 0) /\
   after [op_Push 7; op_Push 8; op_Pop []] (mkQueue [0; 0; 0] 3 0 0 0)
     = Some (mkQueue [7; 8; 0] 3 1 1 2)) /\
  exists old q_ q1 q2,
    pops 1 (mkQueue [7; 8; 0] 3 1 1 2) = Ret old q_ /\
    pushes [1; 2; 3] (mkQueue [7; 8; 0] 3 1 1 2) = Ret tt q1 /\
    count q1 = 3 /\
    pops (Z.to_nat (count q1)) q1 = Ret (lastn 3 (old ++ [1; 2; 3])) q2 /\
    count q2 = 0.
Proof.
  assert (Hn : 1 <= 3 <= INT_MAX) by (unfold INT_MAX; lia).
  split.
  - split; [exact Hn|]. split; reflexivity.
  - exact (pushes_then_pops Z 0 3 [op_Push 7; op_Push 8; op_Pop []] [1; 2; 3] _ _
             Hn eq_refl eq_refl).
Defined.

Lemma serve_as_list_witness :
  (1 <= 2 <= INT_MAX /\
   Queue_ctor 0 2 = inr (mkQueue [0; 0] 2 0 0 0) /\
   after [op_Push 9] (mkQueue [0; 0] 2 0 0 0) = Some (mkQueue [9; 0] 2 1 0 1)) /\
  exists old q_ q' q'',
    pops 1 (mkQueue [9; 0] 2 1 0 1) = Ret old q_ /\
    serve [other_push 1; other_push 2; other_pop; other_pop; other_pop;
           other_push 3]
          (mkQueue [9; 0] 2 1 0 1)
      = Ret (fst (list_serve 2 [other_push 1; other_push 2; other_pop; other_pop;
                                other_pop; other_push 3] old)) q' /\
    pops (Z.to_nat (count q')) q'
      = Ret (snd (list_serve 2 [other_push 1; other_push 2; other_pop; other_pop;
                                other_pop; other_push 3] old)) q''.
Proof.
  assert (Hn : 1 <= 2 <= INT_MAX) by (unfold INT_MAX; lia).
  split.
  - split; [exact Hn|]. split; reflexivity.
  - exact (serve_as_list Z 0 2 [op_Push 9] _ _
             [other_push 1; other_push 2; other_pop; other_pop; other_pop;
              other_push 3] Hn eq_refl eq_refl).
Defined.

Lemma served_in_push_order_witness :
  (1 <= 2 <= INT_MAX /\ Queue_ctor 0 2 = inr (mkQueue [0; 0] 2 0 0 0)) /\
  exists ys q,
    serve [other_pop; other_push 1; other_push 2; other_push 3; other_pop;
           other_push 4; other_push 5; other_pop; other_pop; other_pop]
          (mkQueue [0; 0] 2 0 0 0) = Ret ys q /\
    ys `sublist_of` [1; 2; 3; 4; 5].
Proof.
  assert (Hn : 1 <= 2 <= INT_MAX) by (unfold INT_MAX; lia).
  split.
  - split; [exact Hn | reflexivity].
  - exact (served_in_push_order Z 0 2 _
             [other_pop; other_push 1; other_push 2; other_push 3; other_pop;
              other_push 4; other_push 5; other_pop; other_pop; other_pop]
             Hn eq_refl).
Defined.

Lemma Pop_blocks_without_push_witness :
  (push_free [[]; [@other_pop Z]; []] = true /\
   count (mkQueue [5; 0] 2 0 1 1) = 0) /\
  Pop [[]; [other_pop]; []] (mkQueue [5; 0] 2 0 1 1)
    = Blocked (mkQueue [5; 0] 2 0 1 1).
Proof.
  split; [split; reflexivity|].
  exact (Pop_blocks_without_push Z [[]; [other_pop]; []]
           (mkQueue [5; 0] 2 0 1 1) eq_refl eq_refl).
Defined.

Lemma PopWithTimeout_times_out_without_push_witness :
  (push_free (early (mkTimed [[]; [@other_pop Z]] [other_pop])) = true /\
   forallb is_pop (final (mkTimed [[]; [@other_pop Z]] [other_pop])) = true /\
   count (mkQueue [5; 0] 2 0 1 1) = 0) /\
  PopWithTimeout 100 (mkTimed [[]; [other_pop]] [other_pop])
                 (mkQueue [5; 0] 2 0 1 1)
    = Throw (runtime_error timeout_message) (mkQueue [5; 0] 2 0 1 1).
Proof.
  split; [split; [|split]; reflexivity|].
  exact (PopWithTimeout_times_out_without_push Z 100
           (mkTimed [[]; [other_pop]] [other_pop])
           (mkQueue [5; 0] 2 0 1 1) eq_refl eq_refl eq_refl).
Defined.

Lemma Pop_released_by_push_witness :
  (1 <= 2 <= INT_MAX /\
   Queue_ctor 0 2 = inr (mkQueue [0; 0] 2 0 0 0) /\
   after [] (mkQueue [0; 0] 2 0 0 0) = Some (mkQueue [0; 0] 2 0 0 0) /\
   count (mkQueue [0; 0] 2 0 0 0) = 0 /\ push_free [@nil (action Z)] = true) /\
  exists q',
    Pop ([[]] ++ [other_push 5] :: []) (mkQueue [0; 0] 2 0 0 0) = Ret 5 q' /\
    count q' = 0 /\ size q' = 2.
Proof.
  assert (Hn : 1 <= 2 <= INT_MAX) by (unfold INT_MAX; lia).
  split.
  - split; [exact Hn|]. repeat split; reflexivity.
  - exact (Pop_released_by_push Z 0 2 [] _ _ [[]] 5 [] Hn eq_refl eq_refl
             eq_refl eq_refl).
Defined.

Lemma PopWithTimeout_released_by_push_witness :
  (1 <= 2 <= INT_MAX /\
   Queue_ctor 0 2 = inr (mkQueue [0; 0] 2 0 0 0) /\
   after [] (mkQueue [0; 0] 2 0 0 0) = Some (mkQueue [0; 0] 2 0 0 0) /\
   count (mkQueue [0; 0] 2 0 0 0) = 0 /\ 0 < 100 /\
   push_free [[@other_pop Z]] = true) /\
  exists q',
    PopWithTimeout 100 (mkTimed ([[other_pop]] ++ [other_push 1] :: []) [])
                   (mkQueue [0; 0] 2 0 0 0) = Ret 1 q' /\
    count q' = 0 /\ size q' = 2.
Proof.
  assert (Hn : 1 <= 2 <= INT_MAX) by (unfold INT_MAX; lia).
  assert (Hms : 0 < 100) by lia.
  split.
  - split; [exact Hn|]. split; [reflexivity|]. split; [reflexivity|].
    split; [reflexivity|]. split; [exact Hms | reflexivity].
  - exact (PopWithTimeout_released_by_push Z 0 2 [] _ _ 100 [[other_pop]] 1 [] []
             Hn eq_refl eq_refl eq_refl Hms eq_refl).
Defined.

Lemma PopWithTimeout_last_look_witness :
  (1 <= 2 <= INT_MAX /\
   Queue_ctor 0 2 = inr (mkQueue [0; 0] 2 0 0 0) /\
   after [] (mkQueue [0; 0] 2 0 0 0) = Some (mkQueue [0; 0] 2 0 0 0) /\
   count (mkQueue [0; 0] 2 0 0 0) = 0 /\ push_free [[@other_pop Z]] = true) /\
  exists q',
    PopWithTimeout 0 (mkTimed [[other_pop]] [other_push 1])
                   (mkQueue [0; 0] 2 0 0 0) = Ret 1 q' /\
    count q' = 0 /\ size q' = 2.
Proof.
  assert (Hn : 1 <= 2 <= INT_MAX) by (unfold INT_MAX; lia).
  split.
  - split; [exact Hn|]. repeat split; reflexivity.
  - exact (PopWithTimeout_last_look Z 0 2 [] _ _ 0 [[other_pop]] 1
             Hn eq_refl eq_refl eq_refl eq_refl).
Defined.

Lemma stolen_wakeup_witness :
  (1 <= 2 <= INT_MAX /\
   Queue_ctor 0 2 = inr (mkQueue [0; 0] 2 0 0 0) /\
   after [op_Push 7; op_Pop []] (mkQueue [0; 0] 2 0 0 0)
     = Some (mkQueue [7; 0] 2 0 1 1) /\
   count (mkQueue [7; 0] 2 0 1 1) = 0) /\
  exists q',
    Pop [[other_push 5; other_pop]] (mkQueue [7; 0] 2 0 1 1) = Blocked q' /\
    PopWithTimeout 100 (mkTimed [] [other_push 5; other_pop])
                   (mkQueue [7; 0] 2 0 1 1)
      = Throw (runtime_error timeout_message) q' /\
    count q' = 0 /\ front q' = 0.
Proof.
  assert (Hn : 1 <= 2 <= INT_MAX) by (unfold INT_MAX; lia).
  split.
  - split; [exact Hn|]. repeat split; reflexivity.
  - exact (stolen_wakeup Z 0 2 [op_Push 7; op_Pop []] _ _ 5 100
             Hn eq_refl eq_refl eq_refl).
Defined.

Lemma Pop_returns_or_blocks_witness :
  (1 <= 2 <= INT_MAX /\
   Queue_ctor 0 2 = inr (mkQueue [0; 0] 2 0 0 0) /\
   after [op_Push 7] (mkQueue [0; 0] 2 0 0 0) = Some (mkQueue [7; 0] 2 1 0 1)) /\
  ((exists y q', Pop [] (mkQueue [7; 0] 2 1 0 1) = Ret y q' /\ 0 <= count q' < 2) \/
   (exists q', Pop [] (mkQueue [7; 0] 2 1 0 1) = Blocked q' /\ count q' = 0)).
Proof.
  assert (Hn : 1 <= 2 <= INT_MAX) by (unfold INT_MAX; lia).
  split.
  - split; [exact Hn|]. split; reflexivity.
  - exact (Pop_returns_or_blocks Z 0 2 [op_Push 7] _ _ [] Hn eq_refl eq_refl).
Defined.

Lemma PopWithTimeout_returns_or_times_out_witness :
  (1 <= 2 <= INT_MAX /\
   Queue_ctor 0 2 = inr (mkQueue [0; 0] 2 0 0 0) /\
   after [] (mkQueue [0; 0] 2 0 0 0) = Some (mkQueue [0; 0] 2 0 0 0)) /\
  ((exists y q', PopWithTimeout 100 idle (mkQueue [0; 0] 2 0 0 0) = Ret y q' /\
                 0 <= count q' < 2) \/
   (exists q', PopWithTimeout 100 idle (mkQueue [0; 0] 2 0 0 0)
                 = Throw (runtime_error timeout_message) q' /\ count q' = 0)).
Proof.
  assert (Hn : 1 <= 2 <= INT_MAX) by (unfold INT_MAX; lia).
  split.
  - split; [exact Hn|]. split; reflexivity.
  - exact (PopWithTimeout_returns_or_times_out Z 0 2 [] _ _ 100 idle
             Hn eq_refl eq_refl).
Defined.

Lemma zero_capacity_unusable_witness :
  Queue_ctor 0 0 = inr (mkQueue [] 0 0 0 0) /\
  (forall x : Z, Push x (mkQueue [] 0 0 0 0) = Undefined division_by_zero) /\
  (forall (x : Z) ws,
     Pop ([other_push x] :: ws) (mkQueue [] 0 0 0 0) = Undefined division_by_zero) /\
  (forall ws, push_free ws = true ->
              Pop ws (mkQueue (@nil Z) 0 0 0 0) = Blocked (mkQueue [] 0 0 0 0)) /\
  (forall ms, PopWithTimeout ms idle (mkQueue (@nil Z) 0 0 0 0)
              = Throw (runtime_error timeout_message) (mkQueue [] 0 0 0 0)) /\
  Count (mkQueue (@nil Z) 0 0 0 0) = Ret 0 (mkQueue [] 0 0 0 0) /\
  Size (mkQueue (@nil Z) 0 0 0 0) = Ret 0 (mkQueue [] 0 0 0 0).
Proof.
  split; [reflexivity|].
  exact (zero_capacity_unusable Z 0 (mkQueue [] 0 0 0 0) eq_refl).
Defined.
